(** * httpfs: the range-streamed read path of [src/main.py]

    A shallow embedding of the chunk fetcher, the block cache, the per-chunk
    in-flight table, the prefetcher, the size probe and the FUSE
    [open]/[read]/[getattr] handlers, followed by the properties of that code.

    - Python values are kept dynamically typed where the source relies on it
      ([pyval]); offsets and sizes are [Z], byte strings are lists of bytes.
    - The module-level dictionaries are fields of one shared [store]. [FILES]
      and [INODE_MAP] are searched in insertion order and are association
      lists; the others are finite maps. The store also records which locks
      are held, which [threading.Event]s are set, and every request the origin
      has seen.
    - Every function of the source is a program ([prog]): the tree of its
      store accesses, lock operations, HTTP exchanges, event waits and thread
      starts. The consecutive dictionary operations of one critical section
      are one step. A program runs on its own ([exec]) or as one of the
      threads of a [system], in which handler calls and prefetch workers take
      their steps in any order.
    - Not modelled: the session pool and the redirect cache (the read path
      does not use them), [lookup], [readdir], the update listener, and the
      uid, gid and time stamps of the attributes. *)

From Stdlib Require Import ZArith List Lia Bool Strings.Byte.
From stdpp Require Import base gmap strings list.

Local Open Scope Z_scope.

(** ** Python values and exceptions *)

Abbreviation bytes := (list byte).
Abbreviation chunk_key := (string * Z)%type.

#[local] Set Warnings "-register-all".

Inductive pyval : Type :=
| PyInt (z : Z)
| PyBytes (b : bytes)
| PyList (l : list pyval).

Inductive exn : Type :=
| TypeError
| ValueError
| KeyError
| FileNotFoundError
| HTTPError (status : Z)      (* Exception(f"HTTP error {status}") *)
| ClientError                  (* transport failure raised by the HTTP client *)
| FUSEError (errno : Z).

Definition ENOENT : Z := 2.
Definition EACCES : Z := 13.
Definition O_WRONLY : Z := 1.
Definition O_RDWR : Z := 2.

Module Py.

(** [len(l)] *)
Definition len {A} (l : list A) : Z := Z.of_nat (length l).

(** [list(range(start, stop, step))] for a positive [step] (the only step
    the source uses is the chunk size, a positive constant). *)
Definition range_len (start stop step : Z) : Z :=
  if stop <=? start then 0 else (stop - start + step - 1) / step.

Definition range (start stop step : Z) : list Z :=
  map (fun i : nat => start + Z.of_nat i * step)
      (seq 0 (Z.to_nat (range_len start stop step))).

(** Slices with Python's index normalisation: a negative index counts from
    the end and everything is clamped to the sequence. *)
Fixpoint zdrop {A} (n : Z) (l : list A) : list A :=
  match l with
  | [] => []
  | _ :: l' => if n <=? 0 then l else zdrop (n - 1) l'
  end.

Fixpoint ztake {A} (n : Z) (l : list A) : list A :=
  match l with
  | [] => []
  | x :: l' => if n <=? 0 then [] else x :: ztake (n - 1) l'
  end.

Definition norm_index (n i : Z) : Z := if i <? 0 then Z.max 0 (n + i) else i.

(** [l[i:]] *)
Definition slice_from {A} (l : list A) (i : Z) : list A :=
  zdrop (norm_index (len l) i) l.

(** [l[:j]] *)
Definition slice_to {A} (l : list A) (j : Z) : list A :=
  ztake (norm_index (len l) j) l.

(** [max(l)] of a non-empty list, [None] for the empty one (where Python
    raises; the source guards the call). *)
Definition max (l : list Z) : option Z :=
  match l with
  | [] => None
  | x :: l' => Some (fold_left Z.max l' x)
  end.

(** Truthiness of a [str]. *)
Definition truthy (s : string) : bool := negb (String.eqb s EmptyString).

(** Iterating a value: lists yield their elements, [bytes] yield their
    integers, an [int] is not iterable. *)
Definition iter (v : pyval) : exn + list pyval :=
  match v with
  | PyList l => inr l
  | PyBytes b => inr (map (fun x => PyInt (Z.of_N (Byte.to_N x))) b)
  | PyInt _ => inl TypeError
  end.

(** The operand of [offset + chunk_size - 1] has to be a number. *)
Definition as_int (v : pyval) : exn + Z :=
  match v with
  | PyInt z => inr z
  | _ => inl TypeError
  end.

(** First exception of a list of results, else all the values. *)
Fixpoint sequence {A} (l : list (exn + A)) : exn + list A :=
  match l with
  | [] => inr []
  | inl e :: _ => inl e
  | inr a :: l' =>
      match sequence l' with
      | inl e => inl e
      | inr r => inr (a :: r)
      end
  end.

(** [d.get(k)] on a dict kept in insertion order. *)
Fixpoint dict_get {V} (d : list (string * V)) (k : string) : option V :=
  match d with
  | [] => None
  | (k', v) :: d' => if String.eqb k' k then Some v else dict_get d' k
  end.

End Py.

(** ** The block cache *)

(** Modelled from the spec: [cachetools.LRUCache], a library class that is not
    part of the repository. The spec's block cache is "a bounded LRU map from
    chunk key to bytes", "on insertion when full, the least-recently-used
    entry is evicted", and "lookups and insertions both count as accesses";
    the operations below follow the class's [__contains__], [__getitem__],
    [get], [__setitem__] and [popitem] with the default size of one per item. *)

Module LRUCache.

(** Modelled from the spec: a maximum number of resident entries, and the
    entries in recency order, least recently used first. *)
Record t : Type := mk { maxsize : Z; items : list (chunk_key * pyval) }.

Definition empty (m : Z) : t := mk m [].

Definition keys (c : t) : list chunk_key := (items c).*1.

Definition currsize (c : t) : Z := Py.len (items c).

Fixpoint assoc (k : chunk_key) (l : list (chunk_key * pyval)) : option pyval :=
  match l with
  | [] => None
  | (k', v) :: l' => if decide (k' = k) then Some v else assoc k l'
  end.

Fixpoint remove (k : chunk_key) (l : list (chunk_key * pyval))
  : list (chunk_key * pyval) :=
  match l with
  | [] => []
  | (k', v) :: l' => if decide (k' = k) then remove k l' else (k', v) :: remove k l'
  end.

(** [key in cache]: no effect on the order. *)
Definition contains (k : chunk_key) (c : t) : bool :=
  match assoc k (items c) with Some _ => true | None => false end.

(** [cache[key]]: the value, and the key becomes the most recently used. *)
Definition getitem (k : chunk_key) (c : t) : exn + (pyval * t) :=
  match assoc k (items c) with
  | Some v => inr (v, mk (maxsize c) (remove k (items c) ++ [(k, v)]))
  | None => inl KeyError
  end.

(** [cache.get(key, default)] is [cache[key] if key in cache else default]. *)
Definition get (k : chunk_key) (default : pyval) (c : t) : pyval * t :=
  match getitem k c with
  | inr r => r
  | inl _ => (default, c)
  end.

(** [popitem()] drops the least recently used pair. *)
Definition popitem (c : t) : exn + (chunk_key * pyval * t) :=
  match items c with
  | [] => inl KeyError
  | kv :: l => inr (kv, mk (maxsize c) l)
  end.

(** [while currsize + 1 > maxsize: popitem()]: entries are dropped from the
    least recently used end until one more fits. *)
Fixpoint evict (m : Z) (l : list (chunk_key * pyval)) : list (chunk_key * pyval) :=
  match l with
  | [] => []
  | _ :: l' => if m <? Py.len l + 1 then evict m l' else l
  end.

(** Modelled from the spec: [cache[key] = value]. A cache without a slot
    refuses the value; a new key makes room first; the key ends up most
    recently used. *)
Definition setitem (k : chunk_key) (v : pyval) (c : t) : exn + t :=
  if maxsize c <? 1 then inl ValueError
  else
    let l := if contains k c then items c else evict (maxsize c) (items c) in
    inr (mk (maxsize c) (remove k l ++ [(k, v)])).

(** The resident entries fit the configured maximum. *)
Definition bounded (c : t) : Prop := currsize c <= maxsize c.

End LRUCache.

(** ** Configuration constants *)

Definition DEFAULT_CHUNK_SIZE : Z := 2 * 1024 * 1024.
Definition CACHE_MAX_SIZE : Z := 200 * 1024 * 1024.
Definition NUM_CACHE_CHUNKS : Z := CACHE_MAX_SIZE / DEFAULT_CHUNK_SIZE.
Definition MAX_PREFETCH_AHEAD : Z := 100 * 1024 * 1024.
Definition PREFETCH_BATCH_SIZE : nat := 8.

(** ** The shared store *)

Record EntryAttributes : Type := mkAttr {
  st_ino : Z;
  st_mode : Z;
  st_size : Z;
  st_nlink : Z
}.

(** [stat.S_IFREG | 0o444] *)
Definition S_IFREG_0o444 : Z := Z.lor 32768 292.

(** The arguments a prefetch thread is started with:
    [Thread(target=prefetch, args=(url, start_offset, chunk_size, max_prefetch_bytes))]. *)
Record prefetch_args : Type := mkArgs {
  pf_url : string;
  pf_start_offset : Z;
  pf_chunk_size : Z;
  pf_max_prefetch_bytes : Z
}.

Inductive lock : Type := FILES_LOCK | cache_lock | ongoing_lock | prefetch_lock.

#[global] Instance lock_eq_dec : EqDecision lock.
Proof. solve_decision. Defined.

(** What crosses the wire. [GET u a b] carries [Range: bytes=a-b]. *)
Inductive request : Type :=
| GET (u : string) (first last : Z)
| HEAD (u : string).

Inductive header : Type := Absent | Numeric (n : Z) | Malformed.

Inductive response : Type :=
| Response (status : Z) (content_length : header) (body : bytes)
| NoResponse.

(** The origin answers a request knowing the requests it has seen before. *)
Definition origin : Type := list request -> request -> response.

Record store : Type := mkStore {
  FILES : list (string * string);                 (* filename -> url *)
  INODE_MAP : list (string * Z);                  (* filename -> inode *)
  file_attributes_cache : gmap string EntryAttributes;
  file_chunk_cache : LRUCache.t;
  ongoing_requests : gmap chunk_key nat;          (* key -> Event object *)
  events : list bool;                             (* Event objects: is it set? *)
  prefetch_threads : gmap string prefetch_args;   (* url -> Thread object *)
  held : list lock;                               (* locks currently held *)
  wire : list request                             (* requests seen by the origin, oldest first *)
}.

Definition set_attributes_cache (m : gmap string EntryAttributes) (s : store) : store :=
  mkStore (FILES s) (INODE_MAP s) m (file_chunk_cache s) (ongoing_requests s)
          (events s) (prefetch_threads s) (held s) (wire s).

Definition set_chunk_cache (c : LRUCache.t) (s : store) : store :=
  mkStore (FILES s) (INODE_MAP s) (file_attributes_cache s) c (ongoing_requests s)
          (events s) (prefetch_threads s) (held s) (wire s).

Definition set_ongoing (m : gmap chunk_key nat) (s : store) : store :=
  mkStore (FILES s) (INODE_MAP s) (file_attributes_cache s) (file_chunk_cache s) m
          (events s) (prefetch_threads s) (held s) (wire s).

Definition set_events (l : list bool) (s : store) : store :=
  mkStore (FILES s) (INODE_MAP s) (file_attributes_cache s) (file_chunk_cache s)
          (ongoing_requests s) l (prefetch_threads s) (held s) (wire s).

Definition set_prefetch_threads (m : gmap string prefetch_args) (s : store) : store :=
  mkStore (FILES s) (INODE_MAP s) (file_attributes_cache s) (file_chunk_cache s)
          (ongoing_requests s) (events s) m (held s) (wire s).

Definition set_held (l : list lock) (s : store) : store :=
  mkStore (FILES s) (INODE_MAP s) (file_attributes_cache s) (file_chunk_cache s)
          (ongoing_requests s) (events s) (prefetch_threads s) l (wire s).

Definition set_wire (l : list request) (s : store) : store :=
  mkStore (FILES s) (INODE_MAP s) (file_attributes_cache s) (file_chunk_cache s)
          (ongoing_requests s) (events s) (prefetch_threads s) (held s) l.

(** ** Programs

    A function of the source is a tree of its effects.
    - [Atomic upd k]: one uninterrupted access to the store; the store becomes
      [upd s] and the function goes on as [k s], [s] being the store it read.
    - [Acquire]/[Release]: entering and leaving a [with lock:] block.
    - [Http reqs k]: the requests go out together ([requests.head], or the
      tasks of one [asyncio.gather]); the function goes on with the responses.
    - [Wait ev k]: [event.wait()].
    - [Spawn a k]: [threading.Thread(target=prefetch, args=a).start()].
    - [Spin]: a loop that never exits. *)

Inductive prog (A : Type) : Type :=
| Return (a : A)
| Raise (e : exn)
| Atomic (upd : store -> store) (k : store -> prog A)
| Acquire (l : lock) (k : prog A)
| Release (l : lock) (k : prog A)
| Http (reqs : list request) (k : list response -> prog A)
| Wait (ev : nat) (k : prog A)
| Spawn (a : prefetch_args) (k : prog A)
| Spin.

Arguments Return {A} a.
Arguments Raise {A} e.
Arguments Atomic {A} upd k.
Arguments Acquire {A} l k.
Arguments Release {A} l k.
Arguments Http {A} reqs k.
Arguments Wait {A} ev k.
Arguments Spawn {A} a k.
Arguments Spin {A}.

(** [handle p kr ke]: run [p]; go on with [kr] on its value, with [ke] on the
    exception it raises ([try: ... except: ...]). *)
Fixpoint handle {A B} (p : prog A) (kr : A -> prog B) (ke : exn -> prog B) : prog B :=
  match p with
  | Return a => kr a
  | Raise e => ke e
  | Atomic upd k => Atomic upd (fun s => handle (k s) kr ke)
  | Acquire l k => Acquire l (handle k kr ke)
  | Release l k => Release l (handle k kr ke)
  | Http reqs k => Http reqs (fun rs => handle (k rs) kr ke)
  | Wait ev k => Wait ev (handle k kr ke)
  | Spawn a k => Spawn a (handle k kr ke)
  | Spin => Spin
  end.

Definition bind {A B} (p : prog A) (k : A -> prog B) : prog B := handle p k Raise.

#[global] Instance prog_ret : MRet prog := fun A a => Return a.
#[global] Instance prog_bind : MBind prog := fun A B k p => bind p k.

(** One access that reads a value out of the store and may update it. *)
Definition atomic {B} (op : store -> B * store) : prog B :=
  Atomic (fun s => (op s).2) (fun s => Return (op s).1).

Definition get_store : prog store := atomic (fun s => (s, s)).

(** [with l: body] releases the lock on the way out, also when [body] raises. *)
Definition with_lock {A} (l : lock) (body : prog A) : prog A :=
  Acquire l (handle body (fun a => Release l (Return a)) (fun e => Release l (Raise e))).

Definition raise_or_return {A} (r : exn + A) : prog A :=
  match r with
  | inl e => Raise e
  | inr a => Return a
  end.

(** ** Chunk fetcher *)

(** [fetch_chunk]: the request a task sends ... *)
Definition fetch_chunk_request (url : string) (chunk_size offset : Z) : request :=
  GET url offset (offset + chunk_size - 1).

(** ... and what it makes of the response. *)
Definition fetch_chunk_result (r : response) : exn + bytes :=
  match r with
  | Response status _ body =>
      if (status =? 200) || (status =? 206) then inr body else inl (HTTPError status)
  | NoResponse => inl ClientError
  end.

(** [fetch_chunk] as a call of its own: one request, one body. *)
Definition fetch_chunk (url : string) (offset chunk_size : Z) : prog bytes :=
  Http [fetch_chunk_request url chunk_size offset]
       (fun rs => match rs with
                  | [r] => raise_or_return (fetch_chunk_result r)
                  | _ => Raise ClientError
                  end).

(** [fetch_chunks_async]: one task per element of [offsets], gathered. The
    argument is whatever the caller passes; building the task list iterates
    over it. *)
Definition fetch_chunks_async (url : string) (offsets : pyval) (chunk_size : Z)
  : prog (list bytes) :=
  match Py.iter offsets with
  | inl e => Raise e
  | inr elems =>
      match Py.sequence (map Py.as_int elems) with
      | inl e => Raise e
      | inr offs =>
          Http (map (fetch_chunk_request url chunk_size) offs)
               (fun rs => raise_or_return (Py.sequence (map fetch_chunk_result rs)))
      end
  end.

(** [asyncio.run(fetch_chunks_async(...))] *)
Definition fetch_chunks_sync (url : string) (offsets : pyval) (chunk_size : Z)
  : prog (list bytes) :=
  fetch_chunks_async url offsets chunk_size.

Definition offsets_arg (offsets : list Z) : pyval := PyList (map PyInt offsets).

(** ** Single-flight chunk lookup *)

Definition get_file_chunk (file_url : string) (chunk_start chunk_size : Z) : prog pyval :=
  let cache_key := (file_url, chunk_start) in
  hit ← with_lock cache_lock
          (atomic (fun s =>
             match LRUCache.getitem cache_key (file_chunk_cache s) with
             | inr (v, c) => (Some v, set_chunk_cache c s)
             | inl _ => (None, s)
             end));
  match hit with
  | Some v => Return v
  | None =>
      '(is_ongoing, event) ← with_lock ongoing_lock
          (atomic (fun s =>
             match ongoing_requests s !! cache_key with
             | Some event => ((true, event), s)
             | None =>
                 let event := length (events s) in
                 ((false, event),
                  set_ongoing (<[cache_key := event]> (ongoing_requests s))
                              (set_events (events s ++ [false]) s))
             end));
      if (is_ongoing : bool) then
        Wait event
          (with_lock cache_lock
             (atomic (fun s =>
                let (v, c) := LRUCache.get cache_key (PyBytes []) (file_chunk_cache s) in
                (v, set_chunk_cache c s))))
      else
        chunk ← fetch_chunks_sync file_url (PyInt chunk_start) chunk_size;
        with_lock cache_lock
          (r ← atomic (fun s =>
                 match LRUCache.setitem cache_key (PyList (map PyBytes chunk))
                                        (file_chunk_cache s) with
                 | inr c => (inr tt, set_chunk_cache c s)
                 | inl e => (inl e, s)
                 end);
           raise_or_return r);;
        with_lock ongoing_lock
          (r ← atomic (fun s =>
                 match ongoing_requests s !! cache_key with
                 | Some ev =>
                     (inr tt,
                      set_ongoing (delete cache_key (ongoing_requests s))
                                  (set_events (<[ev := true]> (events s)) s))
                 | None => (inl KeyError, s)
                 end);
           raise_or_return r);;
        Return (PyList (map PyBytes chunk))
  end.

(** ** Prefetcher *)

(** The [for _ in range(PREFETCH_BATCH_SIZE)] loop: the offsets still to
    fetch, and where [current] ends up. *)
Fixpoint collect_offsets (n : nat) (url : string) (chunk_size end_offset current : Z)
    (offsets_to_fetch : list Z) : prog (Z * list Z) :=
  match n with
  | O => Return (current, offsets_to_fetch)
  | S n' =>
      if end_offset <=? current then Return (current, offsets_to_fetch)
      else
        cached ← with_lock cache_lock
                   (atomic (fun s =>
                      (LRUCache.contains (url, current) (file_chunk_cache s), s)));
        if (cached : bool)
        then collect_offsets n' url chunk_size end_offset (current + chunk_size)
                             offsets_to_fetch
        else collect_offsets n' url chunk_size end_offset (current + chunk_size)
                             (offsets_to_fetch ++ [current])
  end.

(** [for i, offset in enumerate(offsets_to_fetch): cache[(url, offset)] = chunks[i]] *)
Fixpoint store_chunks (url : string) (l : list (Z * bytes)) (c : LRUCache.t)
  : option exn * LRUCache.t :=
  match l with
  | [] => (None, c)
  | (offset, chunk) :: l' =>
      match LRUCache.setitem (url, offset) (PyBytes chunk) c with
      | inl e => (Some e, c)
      | inr c' => store_chunks url l' c'
      end
  end.

(** The [while current < end_offset] loop. [fuel] bounds the number of
    rounds; a loop that outlives it is a loop that does not exit
    ([prefetch_ends] below: with a positive chunk size it never does). *)
Fixpoint prefetch_loop (fuel : nat) (url : string) (chunk_size end_offset current : Z)
  : prog unit :=
  match fuel with
  | O => if end_offset <=? current then Return tt else Spin
  | S fuel' =>
      if end_offset <=? current then Return tt
      else
        '(current', offsets_to_fetch) ←
          collect_offsets PREFETCH_BATCH_SIZE url chunk_size end_offset current [];
        match offsets_to_fetch with
        | [] => Return tt
        | _ =>
            chunks ← fetch_chunks_sync url (offsets_arg offsets_to_fetch) chunk_size;
            with_lock cache_lock
              (e ← atomic (fun s =>
                     let (e, c) := store_chunks url (combine offsets_to_fetch chunks)
                                                (file_chunk_cache s) in
                     (e, set_chunk_cache c s));
               match e with
               | Some e => Raise e
               | None => Return tt
               end);;
            prefetch_loop fuel' url chunk_size end_offset current'
        end
  end.

(** Rounds the loop can take when the chunk size is positive: every round
    moves [current] forward by at least one chunk. *)
Definition prefetch_rounds (chunk_size max_prefetch_bytes : Z) : nat :=
  if chunk_size <=? 0 then 0
  else Z.to_nat (max_prefetch_bytes / chunk_size + 1).

Definition prefetch (url : string) (start_offset chunk_size max_prefetch_bytes : Z)
  : prog unit :=
  let current := start_offset in
  let end_offset := start_offset + max_prefetch_bytes in
  prefetch_loop (prefetch_rounds chunk_size max_prefetch_bytes)
                url chunk_size end_offset current;;
  (* Remove thread marker when done *)
  with_lock prefetch_lock
    (atomic (fun s => (tt, set_prefetch_threads (delete url (prefetch_threads s)) s))).

Definition run_prefetch (a : prefetch_args) : prog unit :=
  prefetch (pf_url a) (pf_start_offset a) (pf_chunk_size a) (pf_max_prefetch_bytes a).

(** [[off for (u, off) in file_chunk_cache if u == url]] *)
Definition offsets_cached_for (url : string) (c : LRUCache.t) : list Z :=
  map snd (filter (fun k : chunk_key => k.1 = url) (LRUCache.keys c)).

(** What [maybe_prefetch] starts, given the offsets it found cached. *)
Definition lookahead (url : string) (current_read_offset : Z) (cached_offsets : list Z)
  : list prefetch_args :=
  let highest_cached := default current_read_offset (Py.max cached_offsets) in
  let target := current_read_offset + MAX_PREFETCH_AHEAD in
  if highest_cached <? target then
    [mkArgs url highest_cached DEFAULT_CHUNK_SIZE (target - highest_cached)]
  else [].

Definition maybe_prefetch (url : string) (current_read_offset : Z) : prog unit :=
  cached_offsets ← with_lock cache_lock
      (atomic (fun s => (offsets_cached_for url (file_chunk_cache s), s)));
  match lookahead url current_read_offset cached_offsets with
  | a :: _ => Spawn a (Return tt)
  | [] => Return tt
  end.

(** ** Size probe *)

(** [int(r.headers.get("Content-Length", 0))] *)
Definition content_length_of (r : response) : exn + Z :=
  match r with
  | Response _ Absent _ => inr 0
  | Response _ (Numeric n) _ => inr n
  | Response _ Malformed _ => inl ValueError
  | NoResponse => inl ClientError
  end.

(** [requests.head(url, allow_redirects=True)] followed by the conversion. *)
Definition head_size (url : string) : prog Z :=
  Http [HEAD url]
       (fun rs => match rs with
                  | [r] => raise_or_return (content_length_of r)
                  | _ => Raise ClientError
                  end).

Definition get_file_attr (filename : string) : prog EntryAttributes :=
  cached ← atomic (fun s => (file_attributes_cache s !! filename, s));
  match cached with
  | Some attr => Return attr
  | None =>
      ids ← atomic (fun s => ((Py.dict_get (INODE_MAP s) filename,
                               Py.dict_get (FILES s) filename), s));
      match ids with
      | (Some inode, Some url) =>
          size ← handle (head_size url) Return (fun _ => Return 0);
          let attr := mkAttr inode S_IFREG_0o444 size 1 in
          (* cache so we don't keep firing http requests every read *)
          atomic (fun s =>
            (tt, set_attributes_cache (<[filename := attr]> (file_attributes_cache s)) s));;
          Return attr
      | _ => Raise FileNotFoundError
      end
  end.

(** ** FUSE handlers *)

(** [next((fn for fn, ino in INODE_MAP.items() if ino == inode), None)] *)
Fixpoint filename_of_inode (m : list (string * Z)) (inode : Z) : option string :=
  match m with
  | [] => None
  | (fn, ino) :: m' => if ino =? inode then Some fn else filename_of_inode m' inode
  end.

Definition ROOT_INODE : Z := 1.

(** [HTTPFS.getattr] for a file inode (the root directory has attributes of
    its own, which are not part of the read path). *)
Definition getattr (inode : Z) : prog EntryAttributes :=
  if inode =? ROOT_INODE then Return (mkAttr ROOT_INODE (Z.lor 16384 493) 0 2)
  else
    filename ← with_lock FILES_LOCK
                 (atomic (fun s => (filename_of_inode (INODE_MAP s) inode, s)));
    match filename with
    | None => Raise (FUSEError ENOENT)
    | Some filename => get_file_attr filename
    end.

Definition py_min3 (a b c : Z) : Z := Z.min (Z.min a b) c.

Definition open (inode flags : Z) : prog Z :=
  if negb (Z.land flags (Z.lor O_WRONLY O_RDWR) =? 0) then Raise (FUSEError EACCES)
  else
    '(filename, url) ← with_lock FILES_LOCK
        (atomic (fun s =>
           let filename := filename_of_inode (INODE_MAP s) inode in
           let url := match filename with
                      | Some fn => if Py.truthy fn then Py.dict_get (FILES s) fn else None
                      | None => None
                      end in
           ((filename, url), s)));
    match filename, url with
    | Some filename, Some url =>
        if Py.truthy filename && Py.truthy url then
          let cache_key := (url, 0) in
          with_lock cache_lock
            (cached ← atomic (fun s =>
                        (LRUCache.contains cache_key (file_chunk_cache s), s));
             (* Only start prefetch if the first chunk isn't already cached or fetching *)
             if (cached : bool) then Return tt
             else
               with_lock prefetch_lock
                 (running ← atomic (fun s =>
                               (bool_decide (is_Some (prefetch_threads s !! url)), s));
                  if (running : bool) then Return tt
                  else
                    attr ← get_file_attr filename;
                    let t := mkArgs url 0 DEFAULT_CHUNK_SIZE
                                    (py_min3 CACHE_MAX_SIZE (st_size attr)
                                             (10 * 1024 * 1024)) in
                    atomic (fun s =>
                      (tt, set_prefetch_threads (<[url := t]> (prefetch_threads s)) s));;
                    Spawn t (Return tt)));;
          Return inode
        else Return inode
    | _, _ => Return inode
    end.

(** The assembly loop of [read]: the first chunk from [start_in_chunk] on, the
    others whole. *)
Definition assemble (chunks : list bytes) (start_in_chunk : Z) : bytes :=
  match chunks with
  | [] => []
  | chunk :: rest => Py.slice_from chunk start_in_chunk ++ concat rest
  end.

(** Chunk offsets covering [off, off + size). *)
Definition read_offsets (chunk_size off size : Z) : list Z :=
  let start_offset := off - off mod chunk_size in
  let end_offset := off + size in
  let offsets := Py.range start_offset end_offset chunk_size in
  (* If range() is empty, force at least one offset *)
  match offsets with
  | [] => [start_offset]
  | _ => offsets
  end.

Definition read (fh off size : Z) : prog bytes :=
  url ← with_lock FILES_LOCK
          (r ← atomic (fun s =>
                 match filename_of_inode (INODE_MAP s) fh with
                 | None => (inl (FUSEError ENOENT), s)
                 | Some filename => (inr (Py.dict_get (FILES s) filename), s)
                 end);
           raise_or_return r);
  match url with
  | None => Raise (FUSEError ENOENT)
  | Some url =>
      if negb (Py.truthy url) then Raise (FUSEError ENOENT)
      else
        let start_offset := off - off mod DEFAULT_CHUNK_SIZE in
        let offsets := read_offsets DEFAULT_CHUNK_SIZE off size in
        (* Fetch all needed chunks concurrently. *)
        chunks ← fetch_chunks_sync url (offsets_arg offsets) DEFAULT_CHUNK_SIZE;
        let data := assemble chunks (off - start_offset) in
        (* Trim data to exactly 'size' bytes. *)
        let result := Py.slice_to data size in
        (* Trigger prefetch for data beyond what was just read. *)
        maybe_prefetch url (off + size);;
        Return result
  end.

(** ** Semantics *)

Definition is_held (l : lock) (s : store) : bool := bool_decide (l ∈ held s).

Definition acquire (l : lock) (s : store) : store := set_held (l :: held s) s.

Definition release (l : lock) (s : store) : store :=
  set_held (filter (fun l' => l' ≠ l) (held s)) s.

Definition is_set (ev : nat) (s : store) : bool := default false (events s !! ev).

(** The origin sees the requests of a batch in order. *)
Definition send (reqs : list request) (s : store) : store := set_wire (wire s ++ reqs) s.

Definition responses (net : origin) (reqs : list request) (s : store) : list response :=
  map (net (wire s)) reqs.

(** *** One thread on its own

    [exec] runs a program until it returns, raises, or cannot go on, with no
    other thread taking a step in between. The threads it starts are only
    recorded. *)

Inductive outcome (A : Type) : Type :=
| Done (r : exn + A) (s : store) (started : list prefetch_args)
| Blocked (rest : prog A) (s : store) (started : list prefetch_args)
| Diverges.

Arguments Done {A} r s started.
Arguments Blocked {A} rest s started.
Arguments Diverges {A}.

Definition also_started {A} (a : list prefetch_args) (o : outcome A) : outcome A :=
  match o with
  | Done r s l => Done r s (a ++ l)
  | Blocked p s l => Blocked p s (a ++ l)
  | Diverges => Diverges
  end.

Fixpoint exec {A} (net : origin) (p : prog A) (s : store) : outcome A :=
  match p with
  | Return a => Done (inr a) s []
  | Raise e => Done (inl e) s []
  | Atomic upd k => exec net (k s) (upd s)
  | Acquire l k => if is_held l s then Blocked p s [] else exec net k (acquire l s)
  | Release l k => exec net k (release l s)
  | Http reqs k => exec net (k (responses net reqs s)) (send reqs s)
  | Wait ev k => if is_set ev s then exec net k s else Blocked p s []
  | Spawn a k => also_started [a] (exec net k s)
  | Spin => Diverges
  end.

(** *** Interleaved threads

    A thread is either about to run a program or has requests in flight. *)

Inductive tstate (A : Type) : Type :=
| Running (p : prog A)
| InFlight (reqs : list request) (p : prog A).

Arguments Running {A} p.
Arguments InFlight {A} reqs p.

Definition step {A} (net : origin) (t : tstate A) (s : store)
  : option (tstate A * store * list prefetch_args) :=
  match t with
  | InFlight _ p => Some (Running p, s, [])
  | Running p =>
      match p with
      | Return _ | Raise _ => None
      | Atomic upd k => Some (Running (k s), upd s, [])
      | Acquire l k => if is_held l s then None else Some (Running k, acquire l s, [])
      | Release l k => Some (Running k, release l s, [])
      | Http reqs k => Some (InFlight reqs (k (responses net reqs s)), send reqs s, [])
      | Wait ev k => if is_set ev s then Some (Running k, s, []) else None
      | Spawn a k => Some (Running k, s, [a])
      | Spin => Some (Running Spin, s, [])
      end
  end.

(** What a call hands back: the FUSE handlers reply with data, attributes or
    a file handle; [get_file_chunk] returns a value. *)
Inductive reply : Type :=
| Data (b : bytes)
| Attr (a : EntryAttributes)
| Handle (fh : Z)
| Chunk (v : pyval).

Inductive thread : Type :=
| Foreground (t : tstate reply)
| Prefetcher (a : prefetch_args) (t : tstate unit).

Record system : Type := mkSystem { shared : store; threads : list thread }.

Definition start_prefetcher (a : prefetch_args) : thread :=
  Prefetcher a (Running (run_prefetch a)).

(** Thread [i] takes one step; [None] when it cannot (finished or blocked). *)
Definition sys_step (net : origin) (i : nat) (σ : system) : option system :=
  match threads σ !! i with
  | None => None
  | Some (Foreground t) =>
      '(t', s', started) ← step net t (shared σ);
      Some (mkSystem s' (<[i := Foreground t']> (threads σ) ++ map start_prefetcher started))
  | Some (Prefetcher a t) =>
      '(t', s', started) ← step net t (shared σ);
      Some (mkSystem s' (<[i := Prefetcher a t']> (threads σ) ++ map start_prefetcher started))
  end.

(** A schedule is the list of the threads that step, in order. *)
Fixpoint run (net : origin) (schedule : list nat) (σ : system) : option system :=
  match schedule with
  | [] => Some σ
  | i :: rest =>
      match sys_step net i σ with
      | Some σ' => run net rest σ'
      | None => None
      end
  end.

(** Thread [i] steps for as long as it can, at most [n] times. *)
Fixpoint run_thread (net : origin) (n : nat) (i : nat) (σ : system) : system :=
  match n with
  | O => σ
  | S n' =>
      match sys_step net i σ with
      | Some σ' => run_thread net n' i σ'
      | None => σ
      end
  end.

Definition finished {A} (t : tstate A) : option (exn + A) :=
  match t with
  | Running (Return a) => Some (inr a)
  | Running (Raise e) => Some (inl e)
  | _ => None
  end.

(** Requests of a thread that are on the wire and not yet answered. *)
Definition in_flight (th : thread) : list request :=
  match th with
  | Foreground (InFlight reqs _) => reqs
  | Prefetcher _ (InFlight reqs _) => reqs
  | _ => []
  end.

(** Is the request a fetch of the chunk [key]? *)
Definition fetches (key : chunk_key) (r : request) : bool :=
  match r with
  | GET u first _ => String.eqb u key.1 && (first =? key.2)
  | HEAD _ => false
  end.

(** Number of threads that have a fetch of chunk [key] in flight. *)
Definition fetches_in_flight (key : chunk_key) (σ : system) : nat :=
  length (List.filter (fun th => existsb (fetches key) (in_flight th)) (threads σ)).

(** Number of GETs for chunk [key] the origin has seen. *)
Definition gets_seen (key : chunk_key) (s : store) : nat :=
  length (List.filter (fetches key) (wire s)).

(** A prefetch worker is active from its start until its function returns or
    dies with an exception. *)
Definition active_worker (url : string) (th : thread) : bool :=
  match th with
  | Prefetcher a t =>
      String.eqb (pf_url a) url && match finished t with Some _ => false | None => true end
  | Foreground _ => false
  end.

Definition active_workers (url : string) (σ : system) : nat :=
  length (List.filter (active_worker url) (threads σ)).

(** ** Origins *)

(** Bytes [first..last] (inclusive) of a file, as a range request names them. *)
Definition range_bytes (content : bytes) (first last : Z) : bytes :=
  take (Z.to_nat (last - first + 1)) (drop (Z.to_nat first) content).

(** Bytes of the file at [offset, offset + length). *)
Definition origin_bytes (content : bytes) (offset length : Z) : bytes :=
  take (Z.to_nat length) (drop (Z.to_nat offset) content).

(** Every range request for [url] is answered with status 200 or 206 and
    exactly the bytes of the range. *)
Definition serves (net : origin) (url : string) (content : bytes) : Prop :=
  forall history first last,
    exists status hd,
      net history (GET url first last) = Response status hd (range_bytes content first last)
      /\ (status = 200 \/ status = 206).

(** An origin that cooperates on one file. *)
Definition serving (url : string) (content : bytes) : origin :=
  fun _ r =>
    match r with
    | GET u first last =>
        if String.eqb u url then Response 206 Absent (range_bytes content first last)
        else Response 404 Absent []
    | HEAD u =>
        if String.eqb u url then Response 200 (Numeric (Py.len content)) []
        else Response 404 Absent []
    end.

(** An origin that answers nothing. *)
Definition unreachable : origin := fun _ _ => NoResponse.



(** An origin that answers HEAD but fails every GET with status 500. *)
Definition head_only (url : string) (content : bytes) : origin :=
  fun history r =>
    match r with
    | HEAD _ => serving url content history r
    | GET _ _ _ => Response 500 Absent []
    end.

(** ** Observing a run *)

(** How an outcome is continued by the handlers of [handle]. *)
Definition continue (net : origin) {A B} (o : outcome A)
    (kr : A -> prog B) (ke : exn -> prog B) : outcome B :=
  match o with
  | Done (inr a) s l => also_started l (exec net (kr a) s)
  | Done (inl e) s l => also_started l (exec net (ke e) s)
  | Blocked rest s l => Blocked (handle rest kr ke) s l
  | Diverges => Diverges
  end.

Definition result {A} (o : outcome A) : option (exn + A) :=
  match o with
  | Done r _ _ => Some r
  | _ => None
  end.

Definition final_store {A} (o : outcome A) : option store :=
  match o with
  | Done _ s _ => Some s
  | Blocked _ s _ => Some s
  | Diverges => None
  end.

Definition started_by {A} (o : outcome A) : list prefetch_args :=
  match o with
  | Done _ _ l => l
  | Blocked _ _ l => l
  | Diverges => []
  end.

Definition is_blocked {A} (o : outcome A) : bool :=
  match o with
  | Blocked _ _ _ => true
  | _ => false
  end.

(** Resuming a blocked call in a (later) store. *)
Definition resume (net : origin) {A} (o : outcome A) (s : store) : outcome A :=
  match o with
  | Blocked rest _ l => also_started l (exec net rest s)
  | _ => o
  end.

(** ** Calls and systems *)

(** The calls that can arrive: the FUSE handlers, and [get_file_chunk] for
    whoever calls it directly. *)
Inductive call : Type :=
| CallRead (fh off size : Z)
| CallOpen (inode flags : Z)
| CallGetattr (inode : Z)
| CallGetFileChunk (file_url : string) (chunk_start chunk_size : Z).

Definition handler (c : call) : prog reply :=
  match c with
  | CallRead fh off size => b ← read fh off size; Return (Data b)
  | CallOpen inode flags => fh ← open inode flags; Return (Handle fh)
  | CallGetattr inode => a ← getattr inode; Return (Attr a)
  | CallGetFileChunk file_url chunk_start chunk_size =>
      v ← get_file_chunk file_url chunk_start chunk_size; Return (Chunk v)
  end.

(** A system in which the given calls have arrived and not yet run. *)
Definition arrived (s : store) (calls : list call) : system :=
  mkSystem s (map (fun c => Foreground (Running (handler c))) calls).

(** One more call arrives. *)
Definition arrive (c : call) (σ : system) : system :=
  mkSystem (shared σ) (threads σ ++ [Foreground (Running (handler c))]).




Definition is_in_flight (th : thread) : bool :=
  match in_flight th with
  | [] => false
  | _ => true
  end.

(** Thread [i] steps until it has requests in flight (or cannot step), at most
    [n] times. *)
Fixpoint run_to_flight (net : origin) (n : nat) (i : nat) (σ : system) : system :=
  match n with
  | O => σ
  | S n' =>
      if default false (is_in_flight <$> threads σ !! i) then σ
      else match sys_step net i σ with
           | Some σ' => run_to_flight net n' i σ'
           | None => σ
           end
  end.

(** What thread [i] has replied, if it is a handler that has finished. *)
Definition reply_of (i : nat) (σ : system) : option (exn + reply) :=
  match threads σ !! i with
  | Some (Foreground t) => finished t
  | _ => None
  end.

(** How prefetch worker [i] ended, if it has. *)
Definition worker_end (i : nat) (σ : system) : option (exn + unit) :=
  match threads σ !! i with
  | Some (Prefetcher _ t) => finished t
  | _ => None
  end.

Definition worker_args (i : nat) (σ : system) : option prefetch_args :=
  match threads σ !! i with
  | Some (Prefetcher a _) => Some a
  | _ => None
  end.

Definition has_token (url : string) (σ : system) : bool :=
  bool_decide (is_Some (prefetch_threads (shared σ) !! url)).

Definition cached_keys (σ : system) : list chunk_key :=
  LRUCache.keys (file_chunk_cache (shared σ)).

(** ** A small deployment *)

(** The store as [__main__] leaves it: inodes from 2 on in the order of
    [FILES], everything else empty. *)
Definition initial_store (files : list (string * string)) : store :=
  mkStore files
          (combine files.*1 (map (fun i : nat => 2 + Z.of_nat i) (seq 0 (length files))))
          ∅ (LRUCache.empty NUM_CACHE_CHUNKS) ∅ [] ∅ [] [].

(** [bytes[i] = i mod 251] *)
Definition pattern (n : nat) : bytes :=
  map (fun i : nat => default x00 (Byte.of_N (N.of_nat (i mod 251)%nat))) (seq 0 n).

Definition demo_url : string := "http://origin/a.mkv".
Definition demo_content : bytes := pattern 1024.
Definition demo_store : store := initial_store [("a.mkv"%string, demo_url)].
Definition demo_key : chunk_key := (demo_url, 0).

(** A store in which some thread is fetching chunk 0 of the demo file: the key
    is in [ongoing_requests], its event is not set. *)
Definition waiting_store : store :=
  set_ongoing (<[demo_key := 0%nat]> ∅) (set_events [false] demo_store).


(** The demo system once [open] has returned and its prefetch worker has
    fetched and cached chunk 0. *)
Definition warmed_up : system :=
  mkSystem
    (set_chunk_cache (LRUCache.mk NUM_CACHE_CHUNKS [(demo_key, PyBytes demo_content)])
       (set_attributes_cache (<["a.mkv"%string := mkAttr 2 S_IFREG_0o444 1024 1]> ∅)
          (set_wire [HEAD demo_url; GET demo_url 0 (DEFAULT_CHUNK_SIZE - 1)] demo_store)))
    [Foreground (Running (Return (Handle 2)));
     Prefetcher (mkArgs demo_url 0 DEFAULT_CHUNK_SIZE 1024) (Running (Return tt))].

(** ** Invariants of the store

    [preserves I p]: no step of [p] takes a store satisfying [I] to one that
    does not. *)
Inductive preserves (I : store -> Prop) {A : Type} : prog A -> Prop :=
| preserves_Return a : preserves I (Return a)
| preserves_Raise e : preserves I (Raise e)
| preserves_Atomic upd k :
    (forall s, I s -> I (upd s)) ->
    (forall s, preserves I (k s)) ->
    preserves I (Atomic upd k)
| preserves_Acquire l k : preserves I k -> preserves I (Acquire l k)
| preserves_Release l k : preserves I k -> preserves I (Release l k)
| preserves_Http reqs k : (forall rs, preserves I (k rs)) -> preserves I (Http reqs k)
| preserves_Wait ev k : preserves I k -> preserves I (Wait ev k)
| preserves_Spawn a k : preserves I k -> preserves I (Spawn a k)
| preserves_Spin : preserves I Spin.

Definition tstate_preserves (I : store -> Prop) {A} (t : tstate A) : Prop :=
  match t with
  | Running p => preserves I p
  | InFlight _ p => preserves I p
  end.

Definition thread_preserves (I : store -> Prop) (th : thread) : Prop :=
  match th with
  | Foreground t => tstate_preserves I t
  | Prefetcher _ t => tstate_preserves I t
  end.

(** The block cache has the configured maximum and respects it. *)
Definition cache_within_bound (s : store) : Prop :=
  LRUCache.maxsize (file_chunk_cache s) = NUM_CACHE_CHUNKS
  /\ LRUCache.bounded (file_chunk_cache s).

(** No [threading.Event] of the store is set. *)
Definition no_event_set (s : store) : Prop := forall ev, is_set ev s = false.

(** The invariant holds now and no thread will break it. *)
Definition system_satisfies (I : store -> Prop) (σ : system) : Prop :=
  I (shared σ) /\ Forall (thread_preserves I) (threads σ).

(** ** A thread stepping on its own

    [runs_to net t s t' s' started]: by steps of its own the thread gets from
    [t] in store [s] to [t'] in store [s'], starting the workers [started]. *)
Inductive runs_to (net : origin) {A : Type}
  : tstate A -> store -> tstate A -> store -> list prefetch_args -> Prop :=
| runs_here t s : runs_to net t s t s []
| runs_on t s t1 s1 l1 t2 s2 l2 :
    step net t s = Some (t1, s1, l1) ->
    runs_to net t1 s1 t2 s2 l2 ->
    runs_to net t s t2 s2 (l1 ++ l2).

(** [ends_with P p]: every path through [p] ends, either in an exception or in
    a value satisfying [P]; in particular no path reaches [Spin]. *)
Inductive ends_with {A : Type} (P : A -> Prop) : prog A -> Prop :=
| ends_Return a : P a -> ends_with P (Return a)
| ends_Raise e : ends_with P (Raise e)
| ends_Atomic upd k : (forall s, ends_with P (k s)) -> ends_with P (Atomic upd k)
| ends_Acquire l k : ends_with P k -> ends_with P (Acquire l k)
| ends_Release l k : ends_with P k -> ends_with P (Release l k)
| ends_Http reqs k : (forall rs, ends_with P (k rs)) -> ends_with P (Http reqs k)
| ends_Wait ev k : ends_with P k -> ends_with P (Wait ev k)
| ends_Spawn a k : ends_with P k -> ends_with P (Spawn a k).

(** ** What a thread returns among others

    [ensures R net P p]: as long as every store [p] reads satisfies [R] and
    its responses come from [net], [p] raises nothing, and every value it
    returns satisfies [P]. *)
Inductive ensures (R : store -> Prop) (net : origin) {A : Type} (P : A -> Prop)
  : prog A -> Prop :=
| ensures_Return a : P a -> ensures R net P (Return a)
| ensures_Atomic upd k :
    (forall s, R s -> ensures R net P (k s)) -> ensures R net P (Atomic upd k)
| ensures_Acquire l k : ensures R net P k -> ensures R net P (Acquire l k)
| ensures_Release l k : ensures R net P k -> ensures R net P (Release l k)
| ensures_Http reqs k :
    (forall history, ensures R net P (k (map (net history) reqs))) ->
    ensures R net P (Http reqs k)
| ensures_Wait ev k : ensures R net P k -> ensures R net P (Wait ev k)
| ensures_Spawn a k : ensures R net P k -> ensures R net P (Spawn a k)
| ensures_Spin : ensures R net P Spin.

Definition tstate_ensures (R : store -> Prop) (net : origin) {A} (P : A -> Prop)
    (t : tstate A) : Prop :=
  match t with
  | Running p => ensures R net P p
  | InFlight _ p => ensures R net P p
  end.

(** Inode [fh] belongs to [filename], which is registered with [url]. *)
Definition registered (fh : Z) (filename url : string) (s : store) : Prop :=
  filename_of_inode (INODE_MAP s) fh = Some filename
  /\ Py.dict_get (FILES s) filename = Some url.

(** ** Facts about the prelude *)

Section PyFacts.
Context {A : Type}.
Implicit Types l : list A.

Lemma ztake_take n l : Py.ztake n l = take (Z.to_nat n) l.
Proof.
  revert n; induction l as [|x l IH]; intros n; simpl.
  - by rewrite take_nil.
  - destruct (Z.leb_spec n 0).
    + replace (Z.to_nat n) with 0%nat by lia. done.
    + replace (Z.to_nat n) with (S (Z.to_nat (n - 1))) by lia.
      simpl. by rewrite IH.
Qed.

Lemma zdrop_drop n l : Py.zdrop n l = drop (Z.to_nat n) l.
Proof.
  revert n; induction l as [|x l IH]; intros n; simpl.
  - by rewrite drop_nil.
  - destruct (Z.leb_spec n 0).
    + replace (Z.to_nat n) with 0%nat by lia. done.
    + replace (Z.to_nat n) with (S (Z.to_nat (n - 1))) by lia.
      simpl. by rewrite IH.
Qed.

Lemma slice_from_drop l i : 0 <= i -> Py.slice_from l i = drop (Z.to_nat i) l.
Proof.
  intros Hi. unfold Py.slice_from, Py.norm_index.
  destruct (Z.ltb_spec i 0); [lia|]. apply zdrop_drop.
Qed.

Lemma slice_to_take l j : 0 <= j -> Py.slice_to l j = take (Z.to_nat j) l.
Proof.
  intros Hj. unfold Py.slice_to, Py.norm_index.
  destruct (Z.ltb_spec j 0); [lia|]. apply ztake_take.
Qed.

Lemma take_plus_app (n m : nat) l : take (n + m) l = take n l ++ take m (drop n l).
Proof.
  revert l; induction n as [|n IH]; intros [|x l]; simpl; try done.
  - by rewrite take_nil.
  - by rewrite IH.
Qed.

(** Consecutive windows of width [c] starting at [a] make up one window. *)
Lemma concat_windows (c a n : nat) l :
  concat (map (fun i : nat => take c (drop (a + i * c) l)) (seq 0 n))
  = take (n * c) (drop a l).
Proof.
  revert a; induction n as [|n IH]; intros a.
  - done.
  - rewrite <- cons_seq, <- seq_shift. simpl.
    rewrite Nat.add_0_r, take_plus_app, drop_drop. f_equal.
    rewrite map_map, <- (IH (a + c)%nat). f_equal.
    apply map_ext. intros i. do 2 f_equal. lia.
Qed.
End PyFacts.

Lemma range_len_covers start stop step :
  0 < step -> stop - start <= Py.range_len start stop step * step.
Proof.
  intros Hs. unfold Py.range_len.
  destruct (Z.leb_spec stop start); [lia|].
  pose proof (Z.div_mod (stop - start + step - 1) step ltac:(lia)).
  pose proof (Z.mod_pos_bound (stop - start + step - 1) step Hs).
  nia.
Qed.

Lemma range_len_nonneg start stop step : 0 < step -> 0 <= Py.range_len start stop step.
Proof.
  intros Hs. unfold Py.range_len.
  destruct (Z.leb_spec stop start); [lia|].
  apply Z.div_pos; lia.
Qed.

(** ** The read assembler on its own *)

Section Assembly.
Variable chunk_size : Z.
Hypothesis chunk_size_pos : 0 < chunk_size.

Lemma read_offsets_shape off size :
  let start_offset := off - off mod chunk_size in
  exists n : nat,
    read_offsets chunk_size off size
    = map (fun i : nat => start_offset + Z.of_nat i * chunk_size) (seq 0 (S n))
    /\ off + size <= start_offset + Z.of_nat (S n) * chunk_size.
Proof.
  intros start_offset. unfold read_offsets. fold start_offset.
  pose proof (range_len_covers start_offset (off + size) chunk_size chunk_size_pos) as Hc.
  pose proof (range_len_nonneg start_offset (off + size) chunk_size chunk_size_pos) as Hn.
  unfold Py.range.
  destruct (Z.to_nat (Py.range_len start_offset (off + size) chunk_size)) as [|n] eqn:E.
  - exists 0%nat. split; [simpl; do 2 f_equal; lia | nia].
  - exists n. split; [done | nia].
Qed.

Lemma start_offset_bounds off :
  0 <= off -> 0 <= off - off mod chunk_size <= off /\ off mod chunk_size < chunk_size.
Proof.
  intros Hoff.
  pose proof (Z.mod_pos_bound off chunk_size chunk_size_pos).
  pose proof (Z.mod_le off chunk_size Hoff chunk_size_pos). lia.
Qed.

(** What the assembly loop and the final trim make of chunks that are the
    file's bytes at the offsets [read] asks for. *)
Lemma assemble_fidelity (content : bytes) off size :
  0 <= off -> 0 <= size -> off + size <= Py.len content ->
  Py.slice_to
    (assemble (map (fun o => range_bytes content o (o + chunk_size - 1))
                   (read_offsets chunk_size off size))
              (off - (off - off mod chunk_size)))
    size
  = origin_bytes content off size.
Proof.
  intros Hoff Hsize Hlen.
  destruct (read_offsets_shape off size) as (n & -> & Hcover).
  destruct (start_offset_bounds off Hoff) as [HA Hd].
  set (A := off - off mod chunk_size) in *.
  set (c := Z.to_nat chunk_size). set (a := Z.to_nat A).
  rewrite map_map.
  rewrite (map_ext _ (fun i : nat => take c (drop (a + i * c) content))); cycle 1.
  { intros i. unfold range_bytes. f_equal; [|f_equal]; subst c a; nia. }
  pose proof (concat_windows c a (S n) content) as Hw.
  rewrite <- cons_seq in Hw |- *. simpl in Hw |- *.
  rewrite slice_to_take, slice_from_drop by lia.
  rewrite <- drop_app_le.
  2:{ rewrite length_take, length_drop. unfold Py.len in Hlen. subst c a. lia. }
  rewrite Hw. unfold origin_bytes.
  rewrite skipn_firstn_comm, take_take, drop_drop.
  f_equal; [|f_equal]; subst c a; unfold Py.len in Hlen; nia.
Qed.
End Assembly.

(** ** Facts about [exec] *)

Arguments maybe_prefetch : simpl never.
Arguments fetch_chunks_sync : simpl never.
Arguments get_file_attr : simpl never.
Arguments head_size : simpl never.
Arguments run_prefetch : simpl never.
Arguments prefetch_loop : simpl never.
Arguments with_lock : simpl never.
Arguments mbind : simpl never.

Lemma also_started_nil {A} (o : outcome A) : also_started [] o = o.
Proof. by destruct o. Qed.

Lemma also_started_app {A} a b (o : outcome A) :
  also_started a (also_started b o) = also_started (a ++ b) o.
Proof. destruct o; simpl; by rewrite ?app_assoc. Qed.

Section ExecFacts.
Variable net : origin.

Lemma continue_also_started {A B} a (o : outcome A) (kr : A -> prog B) ke :
  continue net (also_started a o) kr ke = also_started a (continue net o kr ke).
Proof.
  destruct o as [[e|x] s l|rest s l|]; simpl; by rewrite ?also_started_app.
Qed.

Lemma exec_handle {A B} (p : prog A) (kr : A -> prog B) ke s :
  exec net (handle p kr ke) s = continue net (exec net p s) kr ke.
Proof.
  revert s; induction p as [a|e|upd k IH|l k IH|l k IH|reqs k IH|ev k IH|a k IH|];
    intros s; simpl.
  - by rewrite also_started_nil.
  - by rewrite also_started_nil.
  - apply IH.
  - destruct (is_held l s); [done | apply IH].
  - apply IH.
  - apply IH.
  - destruct (is_set ev s); [apply IH | done].
  - by rewrite IH, continue_also_started.
  - done.
Qed.

Lemma exec_bind {A B} (p : prog A) (k : A -> prog B) s :
  exec net (p ≫= k) s = continue net (exec net p s) k Raise.
Proof. apply exec_handle. Qed.

Lemma exec_atomic {B} (op : store -> B * store) s :
  exec net (atomic op) s = Done (inr (op s).1) (op s).2 [].
Proof. done. Qed.

Lemma exec_with_lock {A} l (body : prog A) s :
  is_held l s = false ->
  exec net (with_lock l body) s
  = match exec net body (acquire l s) with
    | Done r s' started => Done r (release l s') started
    | Blocked rest s' started =>
        Blocked (handle rest (fun a => Release l (Return a))
                             (fun e => Release l (Raise e))) s' started
    | Diverges => Diverges
    end.
Proof.
  intros Hl. unfold with_lock. simpl. rewrite Hl, exec_handle.
  destruct (exec net body (acquire l s)) as [[e|a] s' st|rest s' st|]; simpl;
    by rewrite ?app_nil_r.
Qed.

Lemma exec_raise_or_return {A} (r : exn + A) s :
  exec net (raise_or_return r) s = Done r s [].
Proof. by destruct r. Qed.
End ExecFacts.

(** ** Facts about locks *)

Lemma release_acquire l s : is_held l s = false -> release l (acquire l s) = s.
Proof.
  unfold is_held, release, acquire. intros H%bool_decide_eq_false.
  destruct s as [F I a c o e p h w]; unfold set_held; simpl in *. f_equal.
  rewrite filter_cons. destruct (decide (l ≠ l)); [done|].
  clear -H. induction h as [|x h IH]; [done|].
  rewrite filter_cons. apply not_elem_of_cons in H as [Hx Hh].
  destruct (decide (x ≠ l)) as [|n]; [by rewrite IH | exfalso; apply n; congruence].
Qed.

Lemma is_held_acquire_ne l l' s : l ≠ l' -> is_held l (acquire l' s) = is_held l s.
Proof.
  intros Hne. unfold is_held, acquire; simpl.
  apply bool_decide_ext. rewrite elem_of_cons. split; [intros [?|?]; [congruence|done] | auto].
Qed.

Lemma is_held_send l reqs s : is_held l (send reqs s) = is_held l s.
Proof. done. Qed.

(** ** [exec] and the steps of a thread agree *)

(** Whatever [exec] computes is reached by the thread's own steps; a blocked
    outcome is a thread that cannot step. *)
Lemma exec_runs_to {A} net (p : prog A) s :
  match exec net p s with
  | Done r s' l => runs_to net (Running p) s (Running (raise_or_return r)) s' l
  | Blocked rest s' l =>
      runs_to net (Running p) s (Running rest) s' l
      /\ step net (Running rest) s' = None
  | Diverges => True
  end.
Proof.
  revert s. induction p as [a|e|upd k IH|l k IH|l k IH|reqs k IH|ev k IH|a k IH|];
    intros s; simpl.
  - constructor.
  - constructor.
  - specialize (IH s (upd s)).
    destruct (exec net (k s) (upd s)) as [r s' st|rest s' st|]; [| |done].
    + by apply (runs_on net _ _ (Running (k s)) (upd s) [] _ _ st).
    + destruct IH as [IH Hb]. split; [|done].
      by apply (runs_on net _ _ (Running (k s)) (upd s) [] _ _ st).
  - destruct (is_held l s) eqn:Hl.
    + split; [constructor | simpl; by rewrite Hl].
    + specialize (IH (acquire l s)).
      destruct (exec net k (acquire l s)) as [r s' st|rest s' st|]; [| |done].
      * apply (runs_on net _ _ (Running k) (acquire l s) [] _ _ st);
          [simpl; by rewrite Hl | done].
      * destruct IH as [IH Hb]. split; [|done].
        apply (runs_on net _ _ (Running k) (acquire l s) [] _ _ st);
          [simpl; by rewrite Hl | done].
  - specialize (IH (release l s)).
    destruct (exec net k (release l s)) as [r s' st|rest s' st|]; [| |done].
    + by apply (runs_on net _ _ (Running k) (release l s) [] _ _ st).
    + destruct IH as [IH Hb]. split; [|done].
      by apply (runs_on net _ _ (Running k) (release l s) [] _ _ st).
  - specialize (IH (responses net reqs s) (send reqs s)).
    set (p := k (responses net reqs s)) in *.
    assert (Hgo : forall t' s' st,
               runs_to net (Running p) (send reqs s) t' s' st ->
               runs_to net (Running (Http reqs k)) s t' s' st).
    { intros t' s' st H.
      apply (runs_on net _ _ (InFlight reqs p) (send reqs s) [] _ _ st);
        [done|].
      by apply (runs_on net _ _ (Running p) (send reqs s) [] _ _ st). }
    destruct (exec net p (send reqs s)) as [r s' st|rest s' st|]; [| |done].
    + by apply Hgo.
    + destruct IH as [IH Hb]. split; [by apply Hgo | done].
  - destruct (is_set ev s) eqn:He.
    + specialize (IH s).
      destruct (exec net k s) as [r s' st|rest s' st|]; [| |done].
      * apply (runs_on net _ _ (Running k) (s) [] _ _ st);
          [simpl; by rewrite He | done].
      * destruct IH as [IH Hb]. split; [|done].
        apply (runs_on net _ _ (Running k) (s) [] _ _ st);
          [simpl; by rewrite He | done].
    + split; [constructor | simpl; by rewrite He].
  - specialize (IH s).
    destruct (exec net k s) as [r s' st|rest s' st|]; simpl; [| |done].
    + by apply (runs_on net _ _ (Running k) (s) [a] _ _ st).
    + destruct IH as [IH Hb]. split; [|done].
      by apply (runs_on net _ _ (Running k) (s) [a] _ _ st).
  - done.
Qed.

(** ** Facts about the block cache *)

Section LRUFacts.
Import LRUCache.
Implicit Types (k : chunk_key) (l : list (chunk_key * pyval)) (c : LRUCache.t).

Lemma assoc_app k l1 l2 :
  assoc k (l1 ++ l2) = match assoc k l1 with Some v => Some v | None => assoc k l2 end.
Proof.
  induction l1 as [|[k' v'] l1 IH]; simpl; [done|].
  by destruct (decide (k' = k)).
Qed.

Lemma assoc_remove_eq k l : assoc k (remove k l) = None.
Proof.
  induction l as [|[k' v'] l IH]; simpl; [done|].
  destruct (decide (k' = k)) as [|Hne]; [done|].
  simpl. by destruct (decide (k' = k)).
Qed.

Lemma assoc_remove_ne k k' l : k' ≠ k -> assoc k' (remove k l) = assoc k' l.
Proof.
  intros Hne. induction l as [|[k0 v0] l IH]; simpl; [done|].
  destruct (decide (k0 = k)) as [->|H0]; simpl.
  - by destruct (decide (k = k')) as [->|].
  - by destruct (decide (k0 = k')).
Qed.

Lemma length_remove_le k l : (length (remove k l) <= length l)%nat.
Proof.
  induction l as [|[k' v'] l IH]; simpl; [done|].
  destruct (decide (k' = k)); simpl; lia.
Qed.

Lemma length_remove_lt k l v : assoc k l = Some v -> (length (remove k l) < length l)%nat.
Proof.
  induction l as [|[k' v'] l IH]; simpl; [done|].
  destruct (decide (k' = k)); simpl; intros H.
  - pose proof (length_remove_le k l). lia.
  - specialize (IH H). lia.
Qed.

(** Moving a key to the most recently used end changes no binding. *)
Lemma assoc_touch k v k' l :
  assoc k l = Some v -> assoc k' (remove k l ++ [(k, v)]) = assoc k' l.
Proof.
  intros Hk. rewrite assoc_app. destruct (decide (k' = k)) as [->|Hne].
  - rewrite assoc_remove_eq. simpl. by destruct (decide (k = k)).
  - rewrite assoc_remove_ne by done. destruct (assoc k' l); [done|].
    simpl. destruct (decide (k = k')); congruence.
Qed.

Lemma evict_length m l : 1 <= m -> Py.len (evict m l) + 1 <= m.
Proof.
  intros Hm. induction l as [|x l IH]; [unfold Py.len; simpl; lia|].
  cbn [evict]. destruct (Z.ltb_spec m (Py.len (x :: l) + 1)); [done | lia].
Qed.

Lemma evict_room m l : Py.len l + 1 <= m -> evict m l = l.
Proof.
  intros Hm. destruct l as [|x l]; [done|].
  cbn [evict]. destruct (Z.ltb_spec m (Py.len (x :: l) + 1)); [lia | done].
Qed.

(** A full cache loses exactly its least recently used entry. *)
Lemma evict_full m x l : Py.len (x :: l) = m -> evict m (x :: l) = l.
Proof.
  intros Hm. cbn [evict]. destruct (Z.ltb_spec m (Py.len (x :: l) + 1)); [|lia].
  apply evict_room. unfold Py.len in *. simpl in Hm. lia.
Qed.

Lemma bounded_empty m : 0 <= m -> bounded (empty m).
Proof. done. Qed.

Lemma getitem_spec k c v c' :
  getitem k c = inr (v, c') ->
  assoc k (items c) = Some v
  /\ maxsize c' = maxsize c
  /\ items c' = remove k (items c) ++ [(k, v)].
Proof.
  unfold getitem. destruct (assoc k (items c)) as [x|]; [|done].
  by intros [= <- <-].
Qed.

Lemma getitem_bounded k c v c' : bounded c -> getitem k c = inr (v, c') -> bounded c'.
Proof.
  unfold bounded, currsize, Py.len.
  intros Hb (Ha & Hm & Hi)%getitem_spec. rewrite Hm, Hi, length_app. simpl.
  pose proof (length_remove_lt _ _ _ Ha). lia.
Qed.

Lemma get_bounded k d c : bounded c -> bounded (get k d c).2.
Proof.
  intros Hb. unfold get. destruct (getitem k c) as [e|[v c']] eqn:E; [done|].
  by eapply getitem_bounded.
Qed.

Lemma get_maxsize k d c : maxsize (get k d c).2 = maxsize c.
Proof.
  unfold get. destruct (getitem k c) as [e|[v c']] eqn:E; [done|].
  simpl. by apply getitem_spec in E as (_ & -> & _).
Qed.

Lemma setitem_maxsize k v c c' : setitem k v c = inr c' -> maxsize c' = maxsize c.
Proof.
  unfold setitem. destruct (maxsize c <? 1); [done|]. by intros [= <-].
Qed.

(** An insertion never leaves more entries than [maxsize], whatever the
    cache held before. *)
Lemma setitem_bounded k v c c' : bounded c -> setitem k v c = inr c' -> bounded c'.
Proof.
  unfold bounded, currsize, setitem, Py.len.
  intros Hb. destruct (Z.ltb_spec (maxsize c) 1) as [|Hm]; [done|].
  intros [= <-]. cbn [maxsize items]. rewrite length_app. simpl.
  unfold contains. destruct (assoc k (items c)) as [x|] eqn:Ha.
  - pose proof (length_remove_lt _ _ _ Ha). lia.
  - pose proof (length_remove_le k (evict (maxsize c) (items c))).
    pose proof (evict_length (maxsize c) (items c) Hm). unfold Py.len in *. lia.
Qed.

Lemma remove_absent k l : assoc k l = None -> remove k l = l.
Proof.
  induction l as [|[k' v'] l IH]; simpl; [done|].
  destruct (decide (k' = k)); [done|]. intros H. by rewrite IH.
Qed.

Lemma assoc_suffix_none k x l : assoc k (x :: l) = None -> assoc k l = None.
Proof. destruct x as [k' v']. simpl. by destruct (decide (k' = k)). Qed.

(** Inserting a new key into a full cache drops the least recently used
    entry, keeps the others in order and puts the new one last. *)
Lemma setitem_full_evicts_lru k v c x l :
  items c = x :: l ->
  currsize c = maxsize c ->
  contains k c = false ->
  setitem k v c = inr (mk (maxsize c) (l ++ [(k, v)])).
Proof.
  intros Hi Hfull Hk. unfold setitem, currsize in *. rewrite Hk, Hi in *.
  destruct (Z.ltb_spec (maxsize c) 1) as [Hm|Hm].
  { unfold Py.len in Hfull. simpl in Hfull. lia. }
  rewrite evict_full by done. rewrite remove_absent; [done|].
  unfold contains in Hk. rewrite Hi in Hk.
  destruct (assoc k (x :: l)) eqn:E; [done|]. by eapply assoc_suffix_none.
Qed.

(** Inserting while there is room evicts nothing. *)
Lemma setitem_room k v c :
  currsize c + 1 <= maxsize c ->
  contains k c = false ->
  setitem k v c = inr (mk (maxsize c) (items c ++ [(k, v)])).
Proof.
  intros Hroom Hk. unfold setitem, currsize in *. rewrite Hk.
  destruct (Z.ltb_spec (maxsize c) 1) as [Hm|Hm].
  { unfold Py.len in Hroom. lia. }
  rewrite evict_room by done. rewrite remove_absent; [done|].
  unfold contains in Hk. by destruct (assoc k (items c)).
Qed.
End LRUFacts.

(** ** The fetcher against a cooperating origin *)

Lemma sequence_as_int offs : Py.sequence (map Py.as_int (map PyInt offs)) = inr offs.
Proof. induction offs as [|o offs IH]; simpl; [done | by rewrite IH]. Qed.

Lemma exec_fetch_chunks_sync_serves net url content offs chunk_size s :
  serves net url content ->
  exec net (fetch_chunks_sync url (offsets_arg offs) chunk_size) s
  = Done (inr (map (fun o => range_bytes content o (o + chunk_size - 1)) offs))
         (send (map (fetch_chunk_request url chunk_size) offs) s) [].
Proof.
  intros Hnet. unfold fetch_chunks_sync, fetch_chunks_async, offsets_arg. simpl.
  rewrite sequence_as_int. simpl. rewrite exec_raise_or_return.
  f_equal. f_equal. unfold responses. generalize (wire s) as h. intros h.
  induction offs as [|o offs IH]; simpl; [done|].
  unfold fetch_chunk_request at 1.
  destruct (Hnet h o (o + chunk_size - 1)) as (st & hd & -> & Hst). simpl.
  replace ((st =? 200) || (st =? 206)) with true
    by (destruct Hst as [-> | ->]; done).
  by rewrite IH.
Qed.

(** [maybe_prefetch] starts a worker whenever the highest cached offset is
    below the target; [prefetch_threads] is neither read nor written. *)
Lemma exec_maybe_prefetch_lookahead net url off s :
  is_held cache_lock s = false ->
  exec net (maybe_prefetch url off) s
  = Done (inr tt) s (lookahead url off (offsets_cached_for url (file_chunk_cache s))).
Proof.
  intros Hl. unfold maybe_prefetch.
  rewrite exec_bind, exec_with_lock, exec_atomic by done. cbn.
  rewrite release_acquire by done.
  unfold lookahead.
  match goal with |- context [if ?b then _ else _] => destruct b end; done.
Qed.

Lemma exec_maybe_prefetch net url off s :
  is_held cache_lock s = false ->
  exists started, exec net (maybe_prefetch url off) s = Done (inr tt) s started.
Proof. intros Hl. eexists. by apply exec_maybe_prefetch_lookahead. Qed.

(** C1: byte fidelity of the read assembler. For a registered file whose
    origin answers every range request with the bytes of the range, and for
    [off + size] within the content length, [read] returns exactly the file's
    bytes at [off, off + size): it asks for the chunks at [read_offsets], takes
    the first from [off - start_offset], the others whole, and trims the
    concatenation to [size] bytes. *)
Theorem read_byte_fidelity net s filename url content fh off size :
  filename_of_inode (INODE_MAP s) fh = Some filename ->
  Py.dict_get (FILES s) filename = Some url ->
  url ≠ EmptyString ->
  serves net url content ->
  is_held FILES_LOCK s = false ->
  is_held cache_lock s = false ->
  0 <= off -> 0 <= size -> off + size <= Py.len content ->
  let offsets := read_offsets DEFAULT_CHUNK_SIZE off size in
  let chunks := map (fun o => range_bytes content o (o + DEFAULT_CHUNK_SIZE - 1)) offsets in
  let start_offset := off - off mod DEFAULT_CHUNK_SIZE in
  Py.slice_to (assemble chunks (off - start_offset)) size = origin_bytes content off size
  /\ exists started,
      exec net (read fh off size) s
      = Done (inr (origin_bytes content off size))
             (send (map (fetch_chunk_request url DEFAULT_CHUNK_SIZE) offsets) s)
             started.
Proof.
  intros Hino Hurl Hne Hnet HF Hc Hoff Hsize Hlen offsets chunks start_offset.
  assert (Hfid : Py.slice_to (assemble chunks (off - start_offset)) size
                 = origin_bytes content off size)
    by (apply assemble_fidelity; done).
  split; [done|]. subst offsets chunks start_offset.
  unfold read.
  rewrite exec_bind, exec_with_lock, exec_bind, exec_atomic by done. cbn.
  rewrite Hino. cbn. rewrite Hurl, release_acquire by done. cbn.
  replace (Py.truthy url) with true; cycle 1.
  { unfold Py.truthy. destruct (String.eqb_spec url EmptyString); done. }
  cbn. rewrite exec_bind.
  rewrite (exec_fetch_chunks_sync_serves _ _ content) by done. cbn.
  rewrite exec_bind.
  destruct (exec_maybe_prefetch net url (off + size)
              (send (map (fetch_chunk_request url DEFAULT_CHUNK_SIZE)
                         (read_offsets DEFAULT_CHUNK_SIZE off size)) s))
    as [started ->]; [done|].
  cbn. exists (started ++ []). by rewrite <- Hfid.
Qed.

(** The theorem on the demo file: [read(2, 100, 100)]. *)
Lemma read_byte_fidelity_witness :
  let net := serving demo_url demo_content in
  (filename_of_inode (INODE_MAP demo_store) 2 = Some "a.mkv"%string
   /\ Py.dict_get (FILES demo_store) "a.mkv" = Some demo_url
   /\ demo_url ≠ EmptyString
   /\ serves net demo_url demo_content
   /\ is_held FILES_LOCK demo_store = false
   /\ is_held cache_lock demo_store = false
   /\ 0 <= 100 /\ 0 <= 100 /\ 100 + 100 <= Py.len demo_content)
  /\ Py.slice_to
       (assemble (map (fun o => range_bytes demo_content o (o + DEFAULT_CHUNK_SIZE - 1))
                      (read_offsets DEFAULT_CHUNK_SIZE 100 100))
                 (100 - (100 - 100 mod DEFAULT_CHUNK_SIZE))) 100
     = origin_bytes demo_content 100 100
  /\ exists started,
      exec net (read 2 100 100) demo_store
      = Done (inr (origin_bytes demo_content 100 100))
             (send (map (fetch_chunk_request demo_url DEFAULT_CHUNK_SIZE)
                        (read_offsets DEFAULT_CHUNK_SIZE 100 100)) demo_store)
             started.
Proof.
  assert (Hnet : serves (serving demo_url demo_content) demo_url demo_content).
  { intros history first last. exists 206, Absent.
    split; [reflexivity | right; reflexivity]. }
  assert (Hlen : 100 + 100 <= Py.len demo_content) by (vm_compute; discriminate).
  split.
  - repeat split; try reflexivity; try discriminate; try lia; try exact Hnet.
  - apply (read_byte_fidelity (serving demo_url demo_content) demo_store
                              "a.mkv" demo_url demo_content 2 100 100);
      try reflexivity; try discriminate; try lia; try exact Hnet.
Defined.

(** ** The single-flight lookup *)

Lemma filter_not_held (l : lock) (h : list lock) :
  l ∉ h -> filter (fun l' => l' ≠ l) (l :: h) = h.
Proof.
  intros H. rewrite filter_cons. destruct (decide (l ≠ l)); [done|].
  induction h as [|x h IH]; [done|].
  rewrite filter_cons. apply not_elem_of_cons in H as [Hx Hh].
  destruct (decide (x ≠ l)) as [|Hxl]; [by rewrite IH | exfalso; apply Hxl; congruence].
Qed.

Lemma release_update_acquire l s (f : store -> store) :
  is_held l s = false ->
  (forall s', held (f s') = held s') ->
  (forall h s', f (set_held h s') = set_held h (f s')) ->
  release l (f (acquire l s)) = f s.
Proof.
  intros H%bool_decide_eq_false Hh Hc. unfold release, acquire.
  rewrite Hc.
  change (held (set_held (l :: held s) (f s))) with (l :: held s).
  rewrite filter_not_held by done.
  rewrite <- (Hh s). by destruct (f s).
Qed.

Lemma contains_false_getitem k c :
  LRUCache.contains k c = false -> LRUCache.getitem k c = inl KeyError.
Proof.
  unfold LRUCache.contains, LRUCache.getitem. by destruct (LRUCache.assoc k (LRUCache.items c)).
Qed.

(** C10: a call of [get_file_chunk] that finds its key neither cached nor in
    flight becomes the leader and fails with [TypeError]: it hands the integer
    [chunk_start] to [fetch_chunks_sync], which iterates over its argument. No
    request is sent, nothing is inserted into the cache, and the exception
    leaves the key's entry in [ongoing_requests] with its event not set. *)
Theorem leader_branch_raises_type_error net s file_url chunk_start chunk_size :
  LRUCache.contains (file_url, chunk_start) (file_chunk_cache s) = false ->
  ongoing_requests s !! (file_url, chunk_start) = None ->
  is_held cache_lock s = false ->
  is_held ongoing_lock s = false ->
  exists s',
    exec net (get_file_chunk file_url chunk_start chunk_size) s = Done (inl TypeError) s' []
    /\ file_chunk_cache s' = file_chunk_cache s
    /\ wire s' = wire s
    /\ exists event,
        ongoing_requests s' !! (file_url, chunk_start) = Some event
        /\ is_set event s' = false.
Proof.
  intros Hmiss Hnone Hc Ho.
  exists (set_ongoing (<[(file_url, chunk_start) := length (events s)]> (ongoing_requests s))
                      (set_events (events s ++ [false]) s)).
  split; [|split; [done | split; [done|]]].
  - unfold get_file_chunk.
    rewrite exec_bind, exec_with_lock, exec_atomic by done. cbn.
    rewrite contains_false_getitem by done. cbn.
    rewrite release_acquire by done.
    rewrite exec_bind, exec_with_lock, exec_atomic by done. cbn.
    rewrite Hnone. cbn.
    rewrite (release_update_acquire ongoing_lock s
               (fun s0 => set_ongoing
                            (<[(file_url, chunk_start) := length (events s)]>
                               (ongoing_requests s))
                            (set_events (events s ++ [false]) s0))) by done.
    rewrite exec_bind. unfold fetch_chunks_sync, fetch_chunks_async. cbn. done.
  - exists (length (events s)). split.
    + cbn. apply lookup_insert_eq.
    + unfold is_set. cbn. by rewrite lookup_app_r, Nat.sub_diag by lia.
Qed.

(** The theorem on the demo store, where nothing is cached or in flight. *)
Lemma leader_branch_raises_type_error_witness :
  (LRUCache.contains (demo_url, 0) (file_chunk_cache demo_store) = false
   /\ ongoing_requests demo_store !! (demo_url, 0) = None
   /\ is_held cache_lock demo_store = false
   /\ is_held ongoing_lock demo_store = false)
  /\ exists s',
      exec unreachable (get_file_chunk demo_url 0 DEFAULT_CHUNK_SIZE) demo_store
      = Done (inl TypeError) s' []
      /\ file_chunk_cache s' = file_chunk_cache demo_store
      /\ wire s' = wire demo_store
      /\ exists event,
          ongoing_requests s' !! (demo_url, 0) = Some event
          /\ is_set event s' = false.
Proof.
  split.
  - repeat split; reflexivity.
  - apply (leader_branch_raises_type_error unreachable demo_store demo_url 0
             DEFAULT_CHUNK_SIZE); reflexivity.
Defined.

(** ** The size probe *)




(** ** Programs that preserve an invariant *)

Section Preserves.
Variable I : store -> Prop.
Hypothesis I_held : forall h s, I s -> I (set_held h s).
Hypothesis I_wire : forall w s, I s -> I (set_wire w s).

Lemma preserves_handle {A B} (p : prog A) (kr : A -> prog B) ke :
  preserves I p ->
  (forall a, preserves I (kr a)) ->
  (forall e, preserves I (ke e)) ->
  preserves I (handle p kr ke).
Proof.
  intros Hp Hr He. induction Hp; simpl; try (constructor; auto); auto.
Qed.

Lemma preserves_bind {A B} (p : prog A) (k : A -> prog B) :
  preserves I p -> (forall a, preserves I (k a)) -> preserves I (p ≫= k).
Proof. intros. apply preserves_handle; auto. constructor. Qed.

Lemma preserves_atomic {B} (op : store -> B * store) :
  (forall s, I s -> I (op s).2) -> preserves I (atomic op).
Proof. intros H. constructor; [done | constructor]. Qed.

Lemma preserves_with_lock {A} l (body : prog A) :
  preserves I body -> preserves I (with_lock l body).
Proof.
  intros H. constructor. apply preserves_handle; [done | |]; repeat constructor.
Qed.

Lemma preserves_raise_or_return {A} (r : exn + A) : preserves I (raise_or_return r).
Proof. destruct r; constructor. Qed.

Lemma step_preserves {A} net (t t' : tstate A) s s' started :
  I s -> tstate_preserves I t -> step net t s = Some (t', s', started) ->
  I s' /\ tstate_preserves I t'.
Proof.
  intros Hs Ht Hstep. destruct t as [p|reqs p]; simpl in *.
  - destruct Ht; simpl in Hstep; try discriminate.
    + inversion Hstep; subst. split; [auto | simpl; auto].
    + destruct (is_held l s); inversion Hstep; subst. split; [by apply I_held | done].
    + inversion Hstep; subst. split; [by apply I_held | done].
    + inversion Hstep; subst. split; [by apply I_wire | simpl; auto].
    + destruct (is_set ev s); inversion Hstep; subst. done.
    + by inversion Hstep; subst.
    + inversion Hstep; subst. split; [done | constructor].
  - by inversion Hstep; subst.
Qed.
End Preserves.

(** ** Invariants that every function preserves *)

Create HintDb preserves.

Ltac preserves_step :=
  first [ solve [auto with preserves nocore] | idtac ];
  lazymatch goal with
  | |- preserves _ (_ ≫= _) => apply preserves_bind; [|intros]
  | |- preserves _ (with_lock _ _) => apply preserves_with_lock
  | |- preserves _ (atomic _) => apply preserves_atomic; intros ? ?
  | |- preserves _ (raise_or_return _) => apply preserves_raise_or_return
  | |- preserves _ (handle _ _ _) => apply preserves_handle; intros
  | |- preserves _ (match ?x with _ => _ end) => destruct x
  | |- preserves _ (let (_, _) := ?x in _) => destruct x
  | |- preserves _ _ => constructor; intros
  end.

(** An invariant that does not depend on the locks, the wire, the attribute
    cache, the in-flight table, the events or the tokens, and that survives
    the hits and the insertions of the block cache, is preserved by every
    handler and every prefetch worker, however they interleave. *)
Section Invariant.
Variable I : store -> Prop.
Hypothesis I_held : forall h s, I s -> I (set_held h s).
Hypothesis I_wire : forall w s, I s -> I (set_wire w s).
Hypothesis I_attributes : forall m s, I s -> I (set_attributes_cache m s).
Hypothesis I_ongoing : forall m s, I s -> I (set_ongoing m s).
Hypothesis I_events : forall l s, I s -> I (set_events l s).
Hypothesis I_tokens : forall m s, I s -> I (set_prefetch_threads m s).
Hypothesis I_getitem : forall k s v c,
I s -> LRUCache.getitem k (file_chunk_cache s) = inr (v, c) -> I (set_chunk_cache c s).
Hypothesis I_setitem : forall k v s c,
I s -> LRUCache.setitem k v (file_chunk_cache s) = inr c -> I (set_chunk_cache c s).

Lemma invariant_same_cache s : I s -> I (set_chunk_cache (file_chunk_cache s) s).
Proof. by destruct s. Qed.

Lemma invariant_get k d s :
I s -> I (set_chunk_cache (LRUCache.get k d (file_chunk_cache s)).2 s).
Proof.
intros Hs. unfold LRUCache.get.
destruct (LRUCache.getitem k (file_chunk_cache s)) as [|[v c]] eqn:E; simpl.
- by apply invariant_same_cache.
- by eapply I_getitem.
Qed.

Lemma invariant_store_chunks url l s :
I s -> I (set_chunk_cache (store_chunks url l (file_chunk_cache s)).2 s).
Proof.
revert s. induction l as [|[offset chunk] l IH]; intros s Hs; simpl.
- by apply invariant_same_cache.
- destruct (LRUCache.setitem _ _ _) as [e'|c'] eqn:E; simpl.
  + by apply invariant_same_cache.
  + apply (IH (set_chunk_cache c' s)). by eapply I_setitem.
Qed.

(** The updates the functions make in their critical sections. *)
Ltac invariant_update :=
lazymatch goal with
| |- I (let (_, _) := LRUCache.get ?k ?d (file_chunk_cache ?s) in _).2 =>
    let H := fresh in
    pose proof (invariant_get k d s ltac:(done)) as H;
    by destruct (LRUCache.get k d (file_chunk_cache s))
| |- I (let (_, _) := store_chunks ?u ?l (file_chunk_cache ?s) in _).2 =>
    let H := fresh in
    pose proof (invariant_store_chunks u l s ltac:(done)) as H;
    by destruct (store_chunks u l (file_chunk_cache s))
| |- I _ => repeat case_match; simpl; eauto
end.

Ltac preserves_all := repeat (preserves_step; try done; try invariant_update).

Lemma fetch_chunks_sync_preserves url offsets chunk_size :
preserves I (fetch_chunks_sync url offsets chunk_size).
Proof. unfold fetch_chunks_sync, fetch_chunks_async. preserves_all. Qed.

Hint Resolve fetch_chunks_sync_preserves : preserves.

Lemma get_file_chunk_preserves file_url chunk_start chunk_size :
preserves I (get_file_chunk file_url chunk_start chunk_size).
Proof. unfold get_file_chunk. preserves_all. Qed.

Lemma collect_offsets_preserves n url chunk_size end_offset current offsets :
preserves I (collect_offsets n url chunk_size end_offset current offsets).
Proof.
revert current offsets. induction n as [|n IH]; intros current offsets; simpl;
  preserves_all.
Qed.

Hint Resolve collect_offsets_preserves : preserves.

Lemma prefetch_loop_preserves fuel url chunk_size end_offset current :
preserves I (prefetch_loop fuel url chunk_size end_offset current).
Proof.
revert current. induction fuel as [|fuel IH]; intros current;
  unfold prefetch_loop; fold prefetch_loop; preserves_all.
Qed.

Hint Resolve prefetch_loop_preserves : preserves.

Lemma run_prefetch_preserves a : preserves I (run_prefetch a).
Proof. unfold run_prefetch, prefetch. preserves_all. Qed.

Lemma maybe_prefetch_preserves url off : preserves I (maybe_prefetch url off).
Proof. unfold maybe_prefetch. preserves_all. Qed.

Lemma get_file_attr_preserves filename : preserves I (get_file_attr filename).
Proof. unfold get_file_attr, head_size. preserves_all. Qed.

Hint Resolve maybe_prefetch_preserves get_file_attr_preserves : preserves.

Lemma getattr_preserves inode : preserves I (getattr inode).
Proof. unfold getattr. preserves_all. Qed.

Lemma open_preserves inode flags : preserves I (open inode flags).
Proof. unfold open. preserves_all. Qed.

Lemma read_preserves fh off size : preserves I (read fh off size).
Proof. unfold read. preserves_all. Qed.

Hint Resolve getattr_preserves open_preserves read_preserves
           get_file_chunk_preserves : preserves.

Lemma handler_preserves c : preserves I (handler c).
Proof. destruct c; simpl; preserves_all. Qed.

Lemma arrived_satisfies s calls : I s -> system_satisfies I (arrived s calls).
Proof.
intros Hs. split; [done|].
apply List.Forall_map, Forall_true. intros c. apply handler_preserves.
Qed.

Lemma sys_step_satisfies net i σ σ' :
system_satisfies I σ -> sys_step net i σ = Some σ' -> system_satisfies I σ'.
Proof.
intros [Hs Hts] Hstep. unfold sys_step in Hstep.
destruct (threads σ !! i) as [[t|a t]|] eqn:Hi; [| |done];
  pose proof (Forall_lookup_1 _ _ _ _ Hts Hi) as Ht; simpl in Ht;
  (destruct (step net t (shared σ)) as [[[t' s'] started]|] eqn:E; [|done]);
  simpl in Hstep; inversion Hstep; subst; clear Hstep;
  destruct (step_preserves I I_held I_wire net t t' _ _ _ Hs Ht E);
  (split; [done|]); simpl; apply Forall_app; (split; [by apply Forall_insert|]);
  apply List.Forall_map, Forall_true; intros a'; apply run_prefetch_preserves.
Qed.

Lemma run_satisfies net schedule σ σ' :
system_satisfies I σ -> run net schedule σ = Some σ' -> system_satisfies I σ'.
Proof.
revert σ. induction schedule as [|i schedule IH]; intros σ Hσ; simpl.
- by intros [= <-].
- destruct (sys_step net i σ) as [σ1|] eqn:E; [|done].
  apply IH. by eapply sys_step_satisfies.
Qed.
End Invariant.

(** *** The cache bound *)

Lemma bound_getitem k s v c :
  cache_within_bound s -> LRUCache.getitem k (file_chunk_cache s) = inr (v, c) ->
  cache_within_bound (set_chunk_cache c s).
Proof.
  intros [Hm Hb] Hg. split; simpl.
  - apply getitem_spec in Hg as (_ & -> & _). done.
  - by eapply getitem_bounded.
Qed.

Lemma bound_setitem k v s c :
  cache_within_bound s -> LRUCache.setitem k v (file_chunk_cache s) = inr c ->
  cache_within_bound (set_chunk_cache c s).
Proof.
  intros [Hm Hb] Hs. split; simpl.
  - by rewrite (setitem_maxsize _ _ _ _ Hs).
  - by eapply setitem_bounded.
Qed.

Lemma initial_store_within_bound files : cache_within_bound (initial_store files).
Proof. split; [done|]. unfold LRUCache.bounded. by vm_compute. Qed.

(** The bound holds in every state the handlers and workers can reach. *)
Lemma run_within_bound net schedule files calls σ :
  run net schedule (arrived (initial_store files) calls) = Some σ ->
  cache_within_bound (shared σ).
Proof.
  intros Hrun.
  assert (Hstart : system_satisfies cache_within_bound (arrived (initial_store files) calls)).
  { apply arrived_satisfies;
      first [ done | apply bound_getitem | apply bound_setitem
            | apply initial_store_within_bound ]. }
  eapply (run_satisfies cache_within_bound) in Hrun;
    first [ apply Hrun | done | apply bound_getitem | apply bound_setitem ].
Qed.

(** ** [read] among other threads *)

Section Ensures.
Variable R : store -> Prop.
Variable net : origin.

Lemma ensures_handle {A B} (P : A -> Prop) (Q : B -> Prop) (p : prog A) kr ke :
ensures R net P p ->
(forall a, P a -> ensures R net Q (kr a)) ->
ensures R net Q (handle p kr ke).
Proof. intros Hp Hr. induction Hp; simpl; try (constructor; auto); auto. Qed.

Lemma ensures_bind {A B} (P : A -> Prop) (Q : B -> Prop) (p : prog A) (k : A -> prog B) :
ensures R net P p -> (forall a, P a -> ensures R net Q (k a)) ->
ensures R net Q (p ≫= k).
Proof. apply ensures_handle. Qed.

Lemma ensures_atomic {B} (P : B -> Prop) (op : store -> B * store) :
(forall s, R s -> P (op s).1) -> ensures R net P (atomic op).
Proof. intros H. constructor. intros s Hs. constructor. auto. Qed.

Lemma ensures_with_lock {A} (P : A -> Prop) l (body : prog A) :
ensures R net P body -> ensures R net P (with_lock l body).
Proof.
intros H. constructor. eapply ensures_handle; [done|].
intros a Ha. by repeat constructor.
Qed.

Lemma step_ensures {A} (P : A -> Prop) (t t' : tstate A) s s' started :
R s -> tstate_ensures R net P t -> step net t s = Some (t', s', started) ->
tstate_ensures R net P t'.
Proof.
intros Hs Ht Hstep. destruct t as [p|reqs p]; simpl in *.
- destruct Ht as [a Ha|upd k Hk|l k Hk|l k Hk|reqs k Hk|ev k Hk|a k Hk|];
    simpl in Hstep; try discriminate.
  + inversion Hstep; subst. simpl. auto.
  + destruct (is_held l s); inversion Hstep; subst. done.
  + by inversion Hstep; subst.
  + inversion Hstep; subst. simpl. apply Hk.
  + destruct (is_set ev s); inversion Hstep; subst. done.
  + by inversion Hstep; subst.
  + inversion Hstep; subst. constructor.
- by inversion Hstep; subst.
Qed.

Lemma finished_ensures {A} (P : A -> Prop) (t : tstate A) r :
tstate_ensures R net P t -> finished t = Some r -> exists a, r = inr a /\ P a.
Proof.
destruct t as [p|reqs p]; simpl; [|done].
intros Hp. destruct Hp; try done. intros [= <-]. eauto.
Qed.
End Ensures.

Lemma fetched_from_serving net url content chunk_size offs history :
  serves net url content ->
  Py.sequence (map fetch_chunk_result
                   (map (net history) (map (fetch_chunk_request url chunk_size) offs)))
  = inr (map (fun o => range_bytes content o (o + chunk_size - 1)) offs).
Proof.
  intros Hnet. induction offs as [|o offs IH]; simpl; [done|].
  unfold fetch_chunk_request at 1.
  destruct (Hnet history o (o + chunk_size - 1)) as (st & hd & -> & Hst). simpl.
  replace ((st =? 200) || (st =? 206)) with true
    by (destruct Hst as [-> | ->]; done).
  by rewrite IH.
Qed.

(** As long as the file stays registered, a [read] that returns returns the
    file's bytes, whatever happens between its steps. *)
Lemma read_ensures net filename url content fh off size :
  url ≠ EmptyString ->
  serves net url content ->
  0 <= off -> 0 <= size -> off + size <= Py.len content ->
  ensures (registered fh filename url) net
          (fun b => b = origin_bytes content off size)
          (read fh off size).
Proof.
  intros Hne Hnet Hoff Hsize Hlen. unfold read.
  apply (ensures_bind _ _ (fun u => u = Some url)).
  { apply ensures_with_lock.
    apply (ensures_bind _ _ (fun r => r = inr (Some url))).
    - apply ensures_atomic. intros s [Hino Hurl]. by rewrite Hino, Hurl.
    - intros r ->. by constructor. }
  intros u ->.
  replace (Py.truthy url) with true; cycle 1.
  { unfold Py.truthy. destruct (String.eqb_spec url EmptyString); done. }
  simpl.
  apply (ensures_bind _ _
           (fun chunks => chunks
                          = map (fun o => range_bytes content o (o + DEFAULT_CHUNK_SIZE - 1))
                                (read_offsets DEFAULT_CHUNK_SIZE off size))).
  { unfold fetch_chunks_sync, fetch_chunks_async, offsets_arg. simpl.
    rewrite sequence_as_int. constructor. intros history.
    rewrite (fetched_from_serving _ _ content) by done. by constructor. }
  intros chunks ->.
  apply (ensures_bind _ _ (fun _ => True)).
  { unfold maybe_prefetch. apply (ensures_bind _ _ (fun _ => True)).
    - apply ensures_with_lock. by apply ensures_atomic.
    - intros offs _. destruct (lookahead _ _ _); by repeat constructor. }
  intros _ _. constructor. by apply assemble_fidelity.
Qed.

Lemma registered_invariant fh filename url :
  (forall h s, registered fh filename url s -> registered fh filename url (set_held h s))
  /\ (forall w s, registered fh filename url s -> registered fh filename url (set_wire w s))
  /\ (forall m s, registered fh filename url s ->
                  registered fh filename url (set_attributes_cache m s))
  /\ (forall m s, registered fh filename url s -> registered fh filename url (set_ongoing m s))
  /\ (forall l s, registered fh filename url s -> registered fh filename url (set_events l s))
  /\ (forall m s, registered fh filename url s ->
                  registered fh filename url (set_prefetch_threads m s))
  /\ (forall c s, registered fh filename url s ->
                  registered fh filename url (set_chunk_cache c s)).
Proof. unfold registered. repeat split; intros; simpl; tauto. Qed.

Lemma lookup_map {A B} (f : A -> B) (l : list A) (i : nat) :
  map f l !! i = f <$> l !! i.
Proof. revert i. induction l as [|x l IH]; intros [|i]; simpl; auto. Qed.

(** A step of any thread leaves what thread [i] ensures in place. *)
Lemma sys_step_ensures (R : store -> Prop) net (P : reply -> Prop) i j σ σ' :
  R (shared σ) ->
  (exists t, threads σ !! i = Some (Foreground t) /\ tstate_ensures R net P t) ->
  sys_step net j σ = Some σ' ->
  exists t, threads σ' !! i = Some (Foreground t) /\ tstate_ensures R net P t.
Proof.
  intros HR (t & Hi & Ht) Hstep. unfold sys_step in Hstep.
  pose proof (lookup_lt_Some _ _ _ Hi) as Hlen.
  destruct (threads σ !! j) as [th|] eqn:Hj; [|done].
  destruct (decide (j = i)) as [->|Hne].
  - rewrite Hi in Hj. inversion Hj; subst th. clear Hj.
    destruct (step net t (shared σ)) as [[[t' s'] started]|] eqn:E; [|done].
    simpl in Hstep. inversion Hstep; subst. clear Hstep. simpl.
    exists t'. split.
    + rewrite lookup_app_l by (by rewrite length_insert).
      by apply list_lookup_insert_eq.
    + by eapply step_ensures.
  - exists t. split; [|done].
    destruct th as [t0|a t0];
      (destruct (step net t0 (shared σ)) as [[[t' s'] started]|]; [|done]);
      simpl in Hstep; inversion Hstep; subst; simpl;
      (rewrite lookup_app_l by (by rewrite length_insert));
      by rewrite list_lookup_insert_ne.
Qed.

(** Byte fidelity in every interleaving: in a system of handler calls and
    prefetch workers, whenever call [i], a [read] of a registered file within
    its content length, has replied, it has replied with the file's bytes. *)
Lemma read_byte_fidelity_interleaved net s calls schedule σ i
      filename url content fh off size r :
  registered fh filename url s ->
  url ≠ EmptyString ->
  serves net url content ->
  0 <= off -> 0 <= size -> off + size <= Py.len content ->
  calls !! i = Some (CallRead fh off size) ->
  run net schedule (arrived s calls) = Some σ ->
  reply_of i σ = Some r ->
  r = inr (Data (origin_bytes content off size)).
Proof.
  intros Hreg Hne Hnet Hoff Hsize Hlen Hcall Hrun Hreply.
  set (R := registered fh filename url).
  set (P := fun x : reply => x = Data (origin_bytes content off size)).
  destruct (registered_invariant fh filename url)
    as (Hh & Hw & Ha & Ho & He & Ht & Hc).
  assert (Hinv : forall schedule σ0 σ1,
             system_satisfies R σ0 ->
             (exists t, threads σ0 !! i = Some (Foreground t) /\ tstate_ensures R net P t) ->
             run net schedule σ0 = Some σ1 ->
             exists t, threads σ1 !! i = Some (Foreground t) /\ tstate_ensures R net P t).
  { intros sch. induction sch as [|j sch IH]; intros σ0 σ1 Hsat Hi; simpl.
    - by intros [= <-].
    - destruct (sys_step net j σ0) as [σ'|] eqn:E; [|done]. intros Hrun'.
      apply (IH σ' σ1); [| |done].
      + eapply (sys_step_satisfies R); try exact E; try done; eauto.
      + eapply sys_step_ensures; [|done|exact E]. apply Hsat. }
  assert (Hstart : exists t, threads (arrived s calls) !! i = Some (Foreground t)
                             /\ tstate_ensures R net P t).
  { eexists. split.
    - unfold arrived. simpl. rewrite lookup_map, Hcall. reflexivity.
    - simpl. apply (ensures_bind _ _ (fun b => b = origin_bytes content off size)).
      + by apply read_ensures.
      + intros b ->. by constructor. }
  assert (Hsat : system_satisfies R (arrived s calls))
    by (apply arrived_satisfies; eauto).
  destruct (Hinv schedule _ _ Hsat Hstart Hrun) as (t & Hi & Hens).
  unfold reply_of in Hreply. rewrite Hi in Hreply.
  destruct (finished_ensures R net P t r Hens Hreply) as (a & -> & ->). done.
Qed.

(** ** Followers of a failed leader

    The one [event.set()] of the source follows the leader's fetch, and that
    fetch raises before it sends anything. No step of any handler or worker
    sets an event, so a caller that has started to wait stays where it is. *)

Lemma no_event_set_same_events s s' :
  events s' = events s -> no_event_set s -> no_event_set s'.
Proof. intros He Hs ev. unfold is_set. rewrite He. apply Hs. Qed.

Lemma no_event_set_new_event s :
  no_event_set s -> no_event_set (set_events (events s ++ [false]) s).
Proof.
  intros Hs ev. unfold is_set. simpl.
  destruct (decide (ev < length (events s))%nat) as [Hlt|Hge].
  - rewrite lookup_app_l by done. apply Hs.
  - rewrite lookup_app_r by lia. by destruct (ev - length (events s))%nat as [|[|n]].
Qed.

Ltac no_event_update :=
  lazymatch goal with
  | |- no_event_set _ =>
      repeat case_match; simpl;
      first [ done
            | by apply no_event_set_new_event
            | by eapply no_event_set_same_events; [|eassumption] ]
  end.

Ltac no_event_all := repeat (preserves_step; try done; try no_event_update).

Lemma no_event_set_held h s : no_event_set s -> no_event_set (set_held h s).
Proof. by apply no_event_set_same_events. Qed.

Lemma no_event_set_wire w s : no_event_set s -> no_event_set (set_wire w s).
Proof. by apply no_event_set_same_events. Qed.

Lemma fetch_chunks_sync_sets_no_event url offsets chunk_size :
  preserves no_event_set (fetch_chunks_sync url offsets chunk_size).
Proof. unfold fetch_chunks_sync, fetch_chunks_async. no_event_all. Qed.

(** The leader's branch ends at its fetch: what follows it in the source,
    [event.set()] included, is never run. *)
Lemma get_file_chunk_sets_no_event file_url chunk_start chunk_size :
  preserves no_event_set (get_file_chunk file_url chunk_start chunk_size).
Proof.
  unfold get_file_chunk.
  apply preserves_bind; [no_event_all|]. intros [v|]; [constructor|].
  apply preserves_bind.
  { apply preserves_with_lock, preserves_atomic. intros s Hs. simpl.
    destruct (ongoing_requests s !! _); simpl; [done|].
    apply (no_event_set_same_events (set_events (events s ++ [false]) s)); [done|].
    by apply no_event_set_new_event. }
  intros [[|] event].
  - no_event_all.
  - unfold fetch_chunks_sync, fetch_chunks_async. simpl. constructor.
Qed.

Lemma collect_offsets_sets_no_event n url chunk_size end_offset current offsets :
  preserves no_event_set (collect_offsets n url chunk_size end_offset current offsets).
Proof.
  revert current offsets. induction n as [|n IH]; intros current offsets; simpl;
    no_event_all.
Qed.

Lemma prefetch_loop_sets_no_event fuel url chunk_size end_offset current :
  preserves no_event_set (prefetch_loop fuel url chunk_size end_offset current).
Proof.
  revert current. induction fuel as [|fuel IH]; intros current;
    unfold prefetch_loop; fold prefetch_loop;
    repeat (preserves_step; try done; try no_event_update;
            try apply collect_offsets_sets_no_event;
            try apply fetch_chunks_sync_sets_no_event).
Qed.

Lemma run_prefetch_sets_no_event a : preserves no_event_set (run_prefetch a).
Proof.
  unfold run_prefetch, prefetch.
  repeat (preserves_step; try done; try no_event_update;
          try apply prefetch_loop_sets_no_event).
Qed.

Lemma maybe_prefetch_sets_no_event url off : preserves no_event_set (maybe_prefetch url off).
Proof. unfold maybe_prefetch. no_event_all. Qed.

Lemma get_file_attr_sets_no_event filename : preserves no_event_set (get_file_attr filename).
Proof. unfold get_file_attr, head_size. no_event_all. Qed.

Lemma handler_sets_no_event c : preserves no_event_set (handler c).
Proof.
  destruct c; simpl.
  - unfold read.
    repeat (preserves_step; try done; try no_event_update;
            try apply fetch_chunks_sync_sets_no_event;
            try apply maybe_prefetch_sets_no_event).
  - unfold open.
    repeat (preserves_step; try done; try no_event_update;
            try apply get_file_attr_sets_no_event).
  - unfold getattr.
    repeat (preserves_step; try done; try no_event_update;
            try apply get_file_attr_sets_no_event).
  - preserves_step; [apply get_file_chunk_sets_no_event | constructor].
Qed.

Lemma sys_step_sets_no_event net i σ σ' :
  system_satisfies no_event_set σ -> sys_step net i σ = Some σ' ->
  system_satisfies no_event_set σ'.
Proof.
  intros [Hs Hts] Hstep. unfold sys_step in Hstep.
  destruct (threads σ !! i) as [[t|a t]|] eqn:Hi; [| |done];
    pose proof (Forall_lookup_1 _ _ _ _ Hts Hi) as Ht; simpl in Ht;
    (destruct (step net t (shared σ)) as [[[t' s'] started]|] eqn:E; [|done]);
    simpl in Hstep; inversion Hstep; subst; clear Hstep;
    destruct (step_preserves no_event_set no_event_set_held no_event_set_wire
                             net t t' _ _ _ Hs Ht E);
    (split; [done|]); simpl; apply Forall_app; (split; [by apply Forall_insert|]);
    apply List.Forall_map, Forall_true; intros a'; apply run_prefetch_sets_no_event.
Qed.



(** No run sets an event: starting from a store without a set event (the
    initial store has no events at all), whatever calls arrive and however
    they and the workers they start are scheduled, every event of the store
    is unset. *)
Lemma no_event_is_ever_set net s calls schedule σ :
  no_event_set s ->
  run net schedule (arrived s calls) = Some σ ->
  no_event_set (shared σ).
Proof.
  intros Hs.
  assert (Hsat : system_satisfies no_event_set (arrived s calls)).
  { split; [done|]. apply List.Forall_map, Forall_true. intros c.
    apply handler_sets_no_event. }
  revert Hsat. generalize (arrived s calls).
  induction schedule as [|i schedule IH]; intros σ0 Hsat; simpl.
  - intros [= <-]. apply Hsat.
  - destruct (sys_step net i σ0) as [σ1|] eqn:E; [|done].
    apply IH. by eapply sys_step_sets_no_event.
Qed.






(** ** The prefetch loop ends *)

Lemma ends_with_weaken {A} (P Q : A -> Prop) (p : prog A) :
  (forall a, P a -> Q a) -> ends_with P p -> ends_with Q p.
Proof. intros HPQ Hp. induction Hp; constructor; auto. Qed.

Lemma ends_with_handle {A B} (P : A -> Prop) (Q : B -> Prop) (p : prog A) kr ke :
  ends_with P p ->
  (forall a, P a -> ends_with Q (kr a)) ->
  (forall e, ends_with Q (ke e)) ->
  ends_with Q (handle p kr ke).
Proof. intros Hp Hr He. induction Hp; simpl; try (constructor; auto); auto. Qed.

Lemma ends_with_bind {A B} (P : A -> Prop) (Q : B -> Prop) (p : prog A) (k : A -> prog B) :
  ends_with P p -> (forall a, P a -> ends_with Q (k a)) -> ends_with Q (p ≫= k).
Proof. intros. eapply ends_with_handle; eauto. constructor. Qed.

Lemma ends_with_atomic {B} (P : B -> Prop) (op : store -> B * store) :
  (forall s, P (op s).1) -> ends_with P (atomic op).
Proof. intros H. constructor. intros s. by constructor. Qed.

Lemma ends_with_with_lock {A} (P : A -> Prop) l (body : prog A) :
  ends_with P body -> ends_with P (with_lock l body).
Proof.
  intros H. constructor. eapply ends_with_handle; [done | |]; intros; repeat constructor; done.
Qed.

Lemma ends_with_raise_or_return {A} (r : exn + A) : ends_with (fun _ => True) (raise_or_return r).
Proof. destruct r; by constructor. Qed.

Lemma ends_with_exec {A} (P : A -> Prop) net (p : prog A) s :
  ends_with P p -> exec net p s <> Diverges.
Proof.
  intros Hp. revert s. induction Hp; intros s; simpl; try done; auto.
  - destruct (is_held l s); [done | auto].
  - destruct (is_set ev s); [auto | done].
  - specialize (IHHp s). by destruct (exec net k s).
Qed.

Lemma fetch_chunks_sync_ends url offsets chunk_size :
  ends_with (fun _ => True) (fetch_chunks_sync url offsets chunk_size).
Proof.
  unfold fetch_chunks_sync, fetch_chunks_async.
  destruct (Py.iter offsets); [constructor|].
  destruct (Py.sequence _); constructor. intros rs. apply ends_with_raise_or_return.
Qed.

(** A round of [collect_offsets] never moves [current] backwards, and moves
    it by at least one chunk when the loop condition held on entry. *)
Lemma collect_offsets_ends n url chunk_size end_offset current offsets :
  0 < chunk_size ->
  ends_with (fun r : Z * list Z =>
               current <= r.1
               /\ (current < end_offset -> (0 < n)%nat -> current + chunk_size <= r.1))
            (collect_offsets n url chunk_size end_offset current offsets).
Proof.
  intros Hcs. revert current offsets.
  induction n as [|n IH]; intros current offsets; simpl.
  - constructor. simpl. lia.
  - destruct (Z.leb_spec end_offset current).
    + constructor. simpl. lia.
    + eapply ends_with_bind.
      { apply ends_with_with_lock, (ends_with_atomic (fun _ => True)). done. }
      intros cached _.
      destruct cached; (eapply ends_with_weaken; [|apply IH]);
        intros [c o] [H1 _]; simpl in *; lia.
Qed.

Lemma prefetch_loop_ends fuel url chunk_size end_offset current :
  0 < chunk_size ->
  end_offset - current <= Z.of_nat fuel * chunk_size ->
  ends_with (fun _ => True) (prefetch_loop fuel url chunk_size end_offset current).
Proof.
  intros Hcs. revert current.
  induction fuel as [|fuel IH]; intros current Hfuel;
    unfold prefetch_loop; fold prefetch_loop.
  - destruct (Z.leb_spec end_offset current); [by constructor | lia].
  - destruct (Z.leb_spec end_offset current); [by constructor|].
    eapply ends_with_bind; [by apply collect_offsets_ends|].
    intros [current' offsets] [_ Hadv]. simpl in Hadv.
    specialize (Hadv ltac:(lia) ltac:(unfold PREFETCH_BATCH_SIZE; lia)).
    destruct offsets as [|o offsets]; [by constructor|].
    eapply ends_with_bind; [apply fetch_chunks_sync_ends|].
    intros chunks _.
    apply (ends_with_bind (fun _ => True)).
    { apply ends_with_with_lock. apply (ends_with_bind (fun _ => True)).
      - by apply ends_with_atomic.
      - intros [e|] _; simpl; by constructor. }
    intros _ _. apply IH. lia.
Qed.

(** With a positive chunk size the rounds [prefetch] allows its loop are
    enough: no path of a prefetch worker reaches [Spin], and running it never
    diverges. *)
Lemma prefetch_ends url start_offset chunk_size max_prefetch_bytes :
  0 < chunk_size ->
  ends_with (fun _ => True) (prefetch url start_offset chunk_size max_prefetch_bytes).
Proof.
  intros Hcs. unfold prefetch.
  eapply ends_with_bind.
  - apply prefetch_loop_ends; [done|].
    unfold prefetch_rounds. destruct (Z.leb_spec chunk_size 0); [lia|].
    destruct (Z.le_gt_cases 0 max_prefetch_bytes) as [Hm|Hm].
    + pose proof (Z.div_mod max_prefetch_bytes chunk_size ltac:(lia)).
      pose proof (Z.mod_pos_bound max_prefetch_bytes chunk_size Hcs).
      pose proof (Z.div_pos max_prefetch_bytes chunk_size Hm Hcs).
      rewrite Z2Nat.id by lia. nia.
    + assert (0 <= Z.of_nat (Z.to_nat (max_prefetch_bytes / chunk_size + 1)) * chunk_size)
        by nia.
      lia.
  - intros _ _. apply ends_with_with_lock, (ends_with_atomic (fun _ => True)). done.
Qed.

(** ** The prefetch token *)

Lemma exec_preserves (I : store -> Prop) {A} net (p : prog A) s :
  (forall h s, I s -> I (set_held h s)) ->
  (forall w s, I s -> I (set_wire w s)) ->
  preserves I p -> I s ->
  match exec net p s with
  | Done _ s' _ => I s'
  | Blocked _ s' _ => I s'
  | Diverges => True
  end.
Proof.
  intros Hh Hw Hp. revert s.
  induction Hp as [a|e|upd k Hupd Hk IH|l k Hk IH|l k Hk IH|reqs k Hk IH|ev k Hk IH|a k Hk IH|];
    intros s Hs; simpl; try done.
  - apply IH. by apply Hupd.
  - destruct (is_held l s); [done|]. apply IH. by apply Hh.
  - apply IH. by apply Hh.
  - apply IH. by apply Hw.
  - destruct (is_set ev s); [by apply IH | done].
  - specialize (IH s Hs). by destruct (exec net k s).
Qed.

Lemma prefetch_loop_keeps_tokens m fuel url chunk_size end_offset current :
  preserves (fun s => prefetch_threads s = m)
            (prefetch_loop fuel url chunk_size end_offset current).
Proof.
  assert (Hfetch : forall offs, preserves (fun s => prefetch_threads s = m)
                                  (fetch_chunks_sync url offs chunk_size)).
  { intros offs. unfold fetch_chunks_sync, fetch_chunks_async.
    repeat (preserves_step; try done; try (repeat case_match; simpl; done)). }
  assert (Hcollect : forall n current offs,
             preserves (fun s => prefetch_threads s = m)
                       (collect_offsets n url chunk_size end_offset current offs)).
  { induction n as [|n IH]; intros c offs; simpl; repeat (preserves_step; try done; try (repeat case_match; simpl; done)). }
  revert current. induction fuel as [|fuel IH]; intros current;
    unfold prefetch_loop; fold prefetch_loop; repeat (preserves_step; try done; try (repeat case_match; simpl; done)).
Qed.

(** A worker that dies with an exception leaves [prefetch_threads] as it found
    it: the line that removes the token is not reached. *)
Lemma failed_prefetch_keeps_tokens net a s e s' started :
  exec net (run_prefetch a) s = Done (inl e) s' started ->
  prefetch_threads s' = prefetch_threads s.
Proof.
  unfold run_prefetch, prefetch. rewrite exec_bind.
  pose proof (exec_preserves (fun s0 => prefetch_threads s0 = prefetch_threads s) net
                (prefetch_loop (prefetch_rounds (pf_chunk_size a) (pf_max_prefetch_bytes a))
                               (pf_url a) (pf_chunk_size a)
                               (pf_start_offset a + pf_max_prefetch_bytes a)
                               (pf_start_offset a)) s
                ltac:(done) ltac:(done) (prefetch_loop_keeps_tokens _ _ _ _ _ _) eq_refl)
    as Hloop.
  destruct (exec net (prefetch_loop _ _ _ _ _) s) as [[e1|[]] s1 l1|rest s1 l1|];
    simpl; try done.
  - by intros [= _ <- _].
  - unfold with_lock. simpl. destruct (is_held prefetch_lock s1); simpl; done.
Qed.

(** A worker that completes has removed the token of its URL. *)
Lemma completed_prefetch_clears_token net a s s' started :
  exec net (run_prefetch a) s = Done (inr tt) s' started ->
  prefetch_threads s' !! pf_url a = None.
Proof.
  unfold run_prefetch, prefetch. rewrite exec_bind.
  destruct (exec net (prefetch_loop _ _ _ _ _) s) as [[e1|[]] s1 l1|rest s1 l1|];
    simpl; try done.
  unfold with_lock. simpl. destruct (is_held prefetch_lock s1); simpl; [done|].
  intros [= <- _]. simpl. apply lookup_delete_eq.
Qed.

(** [warmed_up] is what sixteen steps of [open] followed by eleven steps of
    its worker lead to. *)
Lemma warmed_up_is_reached :
  run (serving demo_url demo_content) (replicate 16 0%nat ++ replicate 11 1%nat)
      (arrived demo_store [CallOpen 2 0])
  = Some warmed_up.
Proof. vm_compute. reflexivity. Qed.

(** C9: the cache bound. The cache is created with [NUM_CACHE_CHUNKS] = 100
    slots. Whatever calls arrive and however their steps and those of the
    prefetch workers interleave, the number of resident chunks never exceeds
    that maximum. A hit moves the entry to the most recently used end, and an
    insertion of a new key into the full cache drops the least recently used
    entry, the first of [items]. *)
Theorem cache_never_exceeds_its_maximum net files calls schedule σ :
  run net schedule (arrived (initial_store files) calls) = Some σ ->
  let cache := file_chunk_cache (shared σ) in
  NUM_CACHE_CHUNKS = 100
  /\ LRUCache.maxsize cache = NUM_CACHE_CHUNKS
  /\ LRUCache.currsize cache <= NUM_CACHE_CHUNKS
  /\ (forall k v cache',
        LRUCache.getitem k cache = inr (v, cache') ->
        LRUCache.items cache' = LRUCache.remove k (LRUCache.items cache) ++ [(k, v)])
  /\ (forall k v lru rest,
        LRUCache.items cache = lru :: rest ->
        LRUCache.currsize cache = NUM_CACHE_CHUNKS ->
        LRUCache.contains k cache = false ->
        LRUCache.setitem k v cache
        = inr (LRUCache.mk NUM_CACHE_CHUNKS (rest ++ [(k, v)]))).
Proof.
  intros Hrun cache.
  destruct (run_within_bound net schedule files calls σ Hrun) as [Hmax Hbound].
  fold cache in Hmax, Hbound. unfold LRUCache.bounded in Hbound.
  split; [done|]. split; [done|]. split; [lia|]. split.
  - intros k v cache' Hget. by apply getitem_spec in Hget as (_ & _ & ->).
  - intros k v lru rest Hitems Hfull Hnew.
    rewrite <- Hmax. apply (setitem_full_evicts_lru k v cache lru rest); [done | lia | done].
Qed.

(** The theorem on the schedule that leads to [warmed_up]. *)
Lemma cache_never_exceeds_its_maximum_witness :
  let cache := file_chunk_cache (shared warmed_up) in
  run (serving demo_url demo_content) (replicate 16 0%nat ++ replicate 11 1%nat)
      (arrived (initial_store [("a.mkv"%string, demo_url)]) [CallOpen 2 0])
  = Some warmed_up
  /\ NUM_CACHE_CHUNKS = 100
  /\ LRUCache.maxsize cache = NUM_CACHE_CHUNKS
  /\ LRUCache.currsize cache <= NUM_CACHE_CHUNKS
  /\ (forall k v cache',
        LRUCache.getitem k cache = inr (v, cache') ->
        LRUCache.items cache' = LRUCache.remove k (LRUCache.items cache) ++ [(k, v)])
  /\ (forall k v lru rest,
        LRUCache.items cache = lru :: rest ->
        LRUCache.currsize cache = NUM_CACHE_CHUNKS ->
        LRUCache.contains k cache = false ->
        LRUCache.setitem k v cache
        = inr (LRUCache.mk NUM_CACHE_CHUNKS (rest ++ [(k, v)]))).
Proof.
  split.
  - vm_compute. reflexivity.
  - apply (cache_never_exceeds_its_maximum
             (serving demo_url demo_content) [("a.mkv"%string, demo_url)] [CallOpen 2 0]
             (replicate 16 0%nat ++ replicate 11 1%nat) warmed_up).
    vm_compute. reflexivity.
Defined.

(** ** Where the code departs from the read path it sets up *)

(** C2: two reads of the same range, interleaved. Each takes the four steps
    that bring it to its HTTP exchange; then both have a GET for chunk 0 on
    the wire and unanswered, the origin has seen two GETs for that chunk, and
    the in-flight table was never touched. *)
Lemma concurrent_reads_fetch_the_same_chunk_twice :
  let net := serving demo_url demo_content in
  let σ0 := arrived demo_store [CallRead 2 0 1; CallRead 2 0 1] in
  (fun σ => (fetches_in_flight demo_key σ,
             gets_seen demo_key (shared σ),
             bool_decide (ongoing_requests (shared σ) = ∅)))
    <$> run net [0; 0; 0; 0; 1; 1; 1; 1]%nat σ0
  = Some (2%nat, 2%nat, true).
Proof. vm_compute. reflexivity. Qed.

(** C3: [read] never looks into the block cache. Two identical reads, one
    after the other, make the origin see two GETs for the one covering chunk;
    and a read of a chunk that the prefetcher has already cached fetches it
    again. *)
Lemma read_bypasses_the_block_cache :
  let net := serving demo_url demo_content in
  (let σ := run_thread net 100 1
              (run_thread net 100 0 (arrived demo_store [CallRead 2 0 1; CallRead 2 0 1])) in
   reply_of 0 σ = Some (inr (Data (origin_bytes demo_content 0 1)))
   /\ reply_of 1 σ = Some (inr (Data (origin_bytes demo_content 0 1)))
   /\ gets_seen demo_key (shared σ) = 2%nat
   /\ cached_keys σ = [])
  /\
  (let σ := run_thread net 100 2 (arrive (CallRead 2 0 1) warmed_up) in
   cached_keys warmed_up = [demo_key]
   /\ gets_seen demo_key (shared warmed_up) = 1%nat
   /\ reply_of 2 σ = Some (inr (Data (origin_bytes demo_content 0 1)))
   /\ gets_seen demo_key (shared σ) = 2%nat).
Proof. vm_compute. repeat split; reflexivity. Qed.

(** C4: the leader's fetch fails; the exception leaves the key in
    [ongoing_requests] with its event not set ([waiting_store] is the store it
    leaves behind), and the next caller for the same chunk waits on that event. *)
Lemma failed_leader_leaves_the_key_in_flight :
  exec unreachable (get_file_chunk demo_url 0 DEFAULT_CHUNK_SIZE) demo_store
  = Done (inl TypeError) waiting_store []
  /\ ongoing_requests waiting_store !! demo_key = Some 0%nat
  /\ is_set 0 waiting_store = false
  /\ is_blocked (exec unreachable (get_file_chunk demo_url 0 DEFAULT_CHUNK_SIZE)
                      waiting_store) = true.
Proof. repeat split; reflexivity. Qed.

(** C6: [open] starts a worker and registers its token; while that worker has
    its requests in flight, a [read] returns and [maybe_prefetch] starts a
    second worker for the same URL without looking at the token. Both are
    active at once. *)
Lemma read_starts_a_second_worker :
  let net := serving demo_url demo_content in
  let σ1 := run_thread net 100 0 (arrived demo_store [CallOpen 2 0; CallRead 2 0 10]) in
  let σ2 := run_to_flight net 100 2 σ1 in
  let σ3 := run_thread net 100 1 σ2 in
  let σ4 := run_to_flight net 100 3 σ3 in
  has_token demo_url σ2 = true
  /\ active_workers demo_url σ2 = 1%nat
  /\ reply_of 1 σ4 = Some (inr (Data (origin_bytes demo_content 0 10)))
  /\ worker_args 2 σ4 = Some (mkArgs demo_url 0 DEFAULT_CHUNK_SIZE 1024)
  /\ worker_args 3 σ4 = Some (mkArgs demo_url 10 DEFAULT_CHUNK_SIZE MAX_PREFETCH_AHEAD)
  /\ map is_in_flight (threads σ4) = [false; false; true; true]
  /\ active_workers demo_url σ4 = 2%nat.
Proof. vm_compute. repeat split; reflexivity. Qed.

(** C7: the origin answers HEAD and fails every GET. The worker started by
    [open] dies with the exception of its first batch and never reaches the
    line that removes its token; the token stays, no worker is active, and a
    second [open] starts nothing. With a cooperating origin the worker
    completes and removes the token. *)
Lemma failed_prefetch_keeps_its_token :
  (let net := head_only demo_url demo_content in
   let σ1 := run_thread net 100 0 (arrived demo_store [CallOpen 2 0; CallOpen 2 0]) in
   let σ2 := run_thread net 100 2 σ1 in
   let σ3 := run_thread net 100 1 σ2 in
   worker_end 2 σ2 = Some (inl (HTTPError 500))
   /\ has_token demo_url σ2 = true
   /\ active_workers demo_url σ2 = 0%nat
   /\ reply_of 0 σ3 = Some (inr (Handle 2))
   /\ reply_of 1 σ3 = Some (inr (Handle 2))
   /\ length (threads σ3) = 3%nat
   /\ active_workers demo_url σ3 = 0%nat)
  /\
  (worker_end 1 warmed_up = Some (inr tt)
   /\ has_token demo_url warmed_up = false).
Proof. vm_compute. repeat split; reflexivity. Qed.

(** ** The handlers on the demo file

    A 1024-byte file with [bytes[i] = i mod 251], served by a cooperating
    origin; the whole file lies in chunk 0. *)

Example read_first_bytes :
  let o := exec (serving demo_url demo_content) (read 2 0 10) demo_store in
  result o = Some (inr (origin_bytes demo_content 0 10))
  /\ wire <$> final_store o = Some [GET demo_url 0 (DEFAULT_CHUNK_SIZE - 1)]
  /\ started_by o = [mkArgs demo_url 10 DEFAULT_CHUNK_SIZE MAX_PREFETCH_AHEAD].
Proof. vm_compute. repeat split; reflexivity. Qed.

(** A read that runs past the end of the file returns what is there. *)
Example read_short_at_eof :
  let o := exec (serving demo_url demo_content) (read 2 1020 100) demo_store in
  result o = Some (inr (origin_bytes demo_content 1020 4))
  /\ Py.len (origin_bytes demo_content 1020 4) = 4.
Proof. vm_compute. repeat split; reflexivity. Qed.

Example read_unknown_inode :
  result (exec (serving demo_url demo_content) (read 3 0 10) demo_store)
  = Some (inl (FUSEError ENOENT)).
Proof. reflexivity. Qed.

Example open_for_writing_is_refused :
  result (exec (serving demo_url demo_content) (open 2 O_WRONLY) demo_store)
  = Some (inl (FUSEError EACCES)).
Proof. reflexivity. Qed.

(** [open] probes the size and starts the warm-up, clamped to the file size. *)
Example open_starts_the_warmup :
  let o := exec (serving demo_url demo_content) (open 2 0) demo_store in
  result o = Some (inr 2)
  /\ wire <$> final_store o = Some [HEAD demo_url]
  /\ started_by o = [mkArgs demo_url 0 DEFAULT_CHUNK_SIZE 1024].
Proof. vm_compute. repeat split; reflexivity. Qed.

(** A gathered batch of one offset is one [fetch_chunk]. *)
Lemma fetch_chunks_sync_single net url offset chunk_size s :
  exec net (fetch_chunks_sync url (offsets_arg [offset]) chunk_size) s
  = continue net (exec net (fetch_chunk url offset chunk_size) s)
             (fun chunk => Return [chunk]) Raise.
Proof.
  unfold fetch_chunks_sync, fetch_chunks_async, fetch_chunk. simpl.
  destruct (fetch_chunk_result _); done.
Qed.
